(** * lite-http-tunnel: the edge server (http2server), the HTTP/2 tunnel
    streams (lib2) and the agent (http2client-example), embedded shallowly.

    Sources: the edge server is unnamed part 002 (it requires [./lib2]),
    [lib2] is unnamed part 001, the agent is [http2client-example.js] with
    an earlier revision in unnamed part 003. [./lib], which holds the HTTP/1
    classes [TunnelRequest] and [TunnelResponse], is not among them.

    Conventions of the embedding.
    - A JavaScript value that is either a string or [undefined] (a header
      lookup, an environment variable, a query parameter) is an
      [option string]; [None] is [undefined].
    - Header sets and [activeRequests] are finite maps ([gmap]).
    - [tunnelSockets] is a list: the source pushes, filters and sorts it.
    - Event emitters are modelled by the set of listeners still attached
      and by the log of what was emitted. *)

From Stdlib Require Import String Ascii ZArith List Bool Lia DecimalString.
From Stdlib Require Import Sorting.Sorted Sorting.Permutation.
From stdpp Require Import base strings gmap list.

Local Open Scope string_scope.
Local Open Scope Z_scope.

(* ===================================================================== *)
(** ** JavaScript primitives used by the source                          *)
(* ===================================================================== *)

(** Truthiness of a string-or-undefined value: [undefined] and [''] are
    falsy, every other string is truthy. *)
Definition truthy (v : option string) : bool :=
  match v with
  | Some (String _ _) => true
  | _ => false
  end.

(** [v || ''] *)
Definition or_empty (v : option string) : string :=
  match v with
  | Some s => s
  | None => ""
  end.

(** Template-literal conversion [`${v}`]. *)
Definition to_str (v : option string) : string :=
  match v with
  | Some s => s
  | None => "undefined"
  end.

(** [s.indexOf(p)]: index of the first occurrence, [-1] when there is none. *)
Definition indexOf (s p : string) : Z :=
  match String.index 0 p s with
  | Some n => Z.of_nat n
  | None => -1
  end.

(** [s.includes(p)] *)
Definition includes (s p : string) : bool := negb (indexOf s p =? -1).

(** [s.length] *)
Definition jslength (s : string) : Z := Z.of_nat (String.length s).

(** [Array.prototype.sort(cmp)], as a stable insertion sort: every element
    is placed in front of the first element it compares strictly below
    ([cmp x y < 0]) and behind all the others. *)
Fixpoint sort_insert {A} (cmp : A -> A -> Z) (x : A) (l : list A) : list A :=
  match l with
  | [] => [x]
  | y :: l' => if cmp x y <? 0 then x :: y :: l' else y :: sort_insert cmp x l'
  end.

Definition js_sort {A} (cmp : A -> A -> Z) (l : list A) : list A :=
  fold_left (fun acc x => sort_insert cmp x acc) l [].

(* ===================================================================== *)
(** ** The agent registry of the edge ([tunnelSockets])                  *)
(* ===================================================================== *)

(** What the edge reads of a control-channel socket: its identity and its
    handshake. *)
Record Socket := mkSocket {
  sock_id : nat;
  handshake_headers : gmap string string;
  handshake_auth_token : option string
}.

Record TunnelSocketObj := mkTunnelSocketObj {
  host : option string;
  pathPrefix : option string;
  socket : Socket;
  supportsHTTP2 : bool
}.

Definition same_key (h p : option string) (s : TunnelSocketObj) : bool :=
  bool_decide (host s = h) && bool_decide (pathPrefix s = p).

Definition getTunnelSocket (h p : option string)
    (tunnelSockets : list TunnelSocketObj) : option TunnelSocketObj :=
  List.find (same_key h p) tunnelSockets.

Definition setTunnelSocket (h p : option string) (sock : Socket)
    (tunnelSockets : list TunnelSocketObj) : list TunnelSocketObj :=
  tunnelSockets ++
  [ {| host := h;
       pathPrefix := p;
       socket := sock;
       supportsHTTP2 :=
         bool_decide (handshake_headers sock !! "supports-http2" = Some "true") |} ].

Definition removeTunnelSocket (h p : option string)
    (tunnelSockets : list TunnelSocketObj) : list TunnelSocketObj :=
  List.filter (fun s => negb (same_key h p s)) tunnelSockets.

(** The filter callback of [getAvailableTunnelSocket]. *)
Definition tunnel_matches (h : option string) (url : string)
    (s : TunnelSocketObj) : bool :=
  if negb (bool_decide (host s = h)) then false
  else if negb (truthy (pathPrefix s)) then true
  else indexOf url (or_empty (pathPrefix s)) =? 0.

(** The sort callback of [getAvailableTunnelSocket]. *)
Definition tunnel_compare (a b : TunnelSocketObj) : Z :=
  if negb (truthy (pathPrefix a)) then 1
  else if negb (truthy (pathPrefix b)) then -1
  else jslength (or_empty (pathPrefix b)) - jslength (or_empty (pathPrefix a)).

Definition getAvailableTunnelSocket (h : option string) (url : string)
    (tunnelSockets : list TunnelSocketObj) : option TunnelSocketObj :=
  let tunnels :=
    js_sort tunnel_compare (List.filter (tunnel_matches h url) tunnelSockets) in
  match tunnels with
  | [] => None
  | t :: _ => Some t
  end.

(** *** Handshake: [io.use] middleware, [io.on('connection')], disconnect *)

Record Env := mkEnv {
  SECRET_KEY : option string;
  VERIFY_TOKEN : option string;
  JWT_GENERATOR_USERNAME : option string;
  JWT_GENERATOR_PASSWORD : option string
}.

(** What the middleware passes to [next]. *)
Inductive next_result :=
  | next_ok
  | next_error (message : string).

Global Instance Socket_eq_dec : EqDecision Socket.
Proof. solve_decision. Defined.

Global Instance next_result_eq_dec : EqDecision next_result.
Proof. solve_decision. Defined.

(** The registry together with the sockets whose ['disconnect'] listener
    ([socket.once('disconnect', onDisconnect)]) is attached. *)
Record EdgeState := mkEdgeState {
  tunnelSockets : list TunnelSocketObj;
  disconnect_listeners : list Socket
}.

Definition edge_init : EdgeState := mkEdgeState [] [].

Inductive EdgeEvent :=
  | Handshake (sock : Socket)
  | Disconnect (sock : Socket).

Section EdgeHandshake.

(** [jwt.verify(token, secret, cb)]: [None] when the callback receives an
    error, [Some t] when it receives a payload whose [token] field is [t].
    With a string secret the callback runs before [verify] returns. *)
Variable jwt_verify : option string -> option string -> option (option string).
Variable env : Env.

Definition io_use (sock : Socket) (ts : list TunnelSocketObj) : next_result :=
  let connectHost := handshake_headers sock !! "host" in
  let pathPrefix := handshake_headers sock !! "path-prefix" in
  match getTunnelSocket connectHost pathPrefix ts with
  | Some _ => next_error (to_str connectHost ++ " has a existing connection")
  | None =>
      if negb (truthy (handshake_auth_token sock)) then
        (* [next] is called here and once more from [jwt.verify]; the
           first call decides *)
        next_error "Authentication error"
      else
        match jwt_verify (handshake_auth_token sock) (SECRET_KEY env) with
        | None => next_error "Authentication error"
        | Some decoded_token =>
            if negb (bool_decide (decoded_token = VERIFY_TOKEN env))
            then next_error "Authentication error"
            else next_ok
        end
  end.

(** [io.on('connection', ...)] *)
Definition on_connection (sock : Socket) (st : EdgeState) : EdgeState :=
  let connectHost := handshake_headers sock !! "host" in
  let pathPrefix := handshake_headers sock !! "path-prefix" in
  {| tunnelSockets := setTunnelSocket connectHost pathPrefix sock (tunnelSockets st);
     disconnect_listeners := sock :: disconnect_listeners st |}.

(** [onDisconnect], which runs only for a socket that carries the listener
    and then detaches it ([once]). *)
Definition on_disconnect (sock : Socket) (st : EdgeState) : EdgeState :=
  if bool_decide (sock ∈ disconnect_listeners st) then
    let connectHost := handshake_headers sock !! "host" in
    let pathPrefix := handshake_headers sock !! "path-prefix" in
    {| tunnelSockets := removeTunnelSocket connectHost pathPrefix (tunnelSockets st);
       disconnect_listeners :=
         List.filter (fun s => negb (bool_decide (s = sock))) (disconnect_listeners st) |}
  else st.

(** A handshake: the middleware runs and, when it calls [next()], the
    server fires ['connection'] for the socket. [jwt.verify] calls back
    before it returns and the server schedules ['connection'] with
    [process.nextTick], so no other handshake runs in between. *)
Definition handshake (sock : Socket) (st : EdgeState) : next_result * EdgeState :=
  match io_use sock (tunnelSockets st) with
  | next_ok => (next_ok, on_connection sock st)
  | next_error m => (next_error m, st)
  end.

Definition edge_step (st : EdgeState) (e : EdgeEvent) : EdgeState :=
  match e with
  | Handshake sock => snd (handshake sock st)
  | Disconnect sock => on_disconnect sock st
  end.

Definition edge_run (evs : list EdgeEvent) : EdgeState :=
  fold_left edge_step evs edge_init.

End EdgeHandshake.

(* ===================================================================== *)
(** ** The edge dispatcher                                               *)
(* ===================================================================== *)

(** What the dispatcher reads of an incoming public request. *)
Record Request := mkRequest {
  httpVersion : string;
  method : string;
  url : string;
  headers : gmap string string;
  encrypted : bool;                 (* [req.socket.encrypted] *)
  remoteAddress : option string     (* [req.socket?.remoteAddress] *)
}.

(** What [handleRequest] does with the request. *)
Inductive Handled :=
  | respond_404_not_found
  | call_handleHTTP2Request (tunnelSocket : Socket) (requestId : string)
  | call_handleHTTP1Request (tunnelSocket : Socket) (requestId : string).

Definition isHttp2 (req : Request) : bool :=
  (httpVersion req =? "2.0")%string ||
  (truthy (headers req !! "content-type") &&
   includes (or_empty (headers req !! "content-type")) "application/grpc").

(** [requestId] is the value [uuidV4()] returns. *)
Definition handleRequest (ts : list TunnelSocketObj) (requestId : string)
    (req : Request) : Handled :=
  match getAvailableTunnelSocket (headers req !! "host") (url req) ts with
  | None => respond_404_not_found
  | Some tunnelSocketObj =>
      let tunnelSocket := socket tunnelSocketObj in
      if isHttp2 req && supportsHTTP2 tunnelSocketObj
      then call_handleHTTP2Request tunnelSocket requestId
      else call_handleHTTP1Request tunnelSocket requestId
  end.

Inductive Flavor := flavor_http1 | flavor_http2.

Definition flavor_of (h : Handled) : option Flavor :=
  match h with
  | respond_404_not_found => None
  | call_handleHTTP2Request _ _ => Some flavor_http2
  | call_handleHTTP1Request _ _ => Some flavor_http1
  end.

Section GetReqHeaders.

(** [new URL(s).port]: [None] when the constructor throws, otherwise the
    port string, which is empty when the host names no port or names the
    default port of the scheme. *)
Variable url_port : string -> option string.

Definition forwardValues (req : Request) (port : string) (key : string) : string :=
  if (key =? "for")%string then to_str (remoteAddress req)
  else if (key =? "port")%string then
    (if truthy (Some port) then port else if encrypted req then "443" else "80")
  else (if encrypted req then "https" else "http").

Definition getReqHeaders (req : Request) : option (gmap string string) :=
  let host := or_empty (headers req !! "host") in
  match url_port ((if encrypted req then "https" else "http") ++ "://" ++ host) with
  | None => None
  | Some port =>
      let hs :=
        fold_left
          (fun (hs : gmap string string) key =>
             let previousValue := or_empty (headers req !! ("x-forwarded-" ++ key)) in
             <[ "x-forwarded-" ++ key :=
                  previousValue ++ (if truthy (Some previousValue) then "," else "")
                    ++ forwardValues req port key ]> hs)
          ["for"; "port"; "proto"] (headers req) in
      Some (<[ "x-forwarded-host" :=
                 if truthy (headers req !! "x-forwarded-host")
                 then or_empty (headers req !! "x-forwarded-host")
                 else host ]> hs)
  end.

End GetReqHeaders.

(** *** The token generator and the server's ['request'] listener *)

Section TokenGenerator.

(** [jwt.sign({ token }, secret)] *)
Variable jwt_sign : option string -> option string -> string.
Variable env : Env.

(** The handler of [app.get('/tunnel_jwt_generator')], on [req.query]. *)
Definition tunnel_jwt_generator (query : gmap string string) : Z * string :=
  if negb (truthy (JWT_GENERATOR_USERNAME env)) || negb (truthy (JWT_GENERATOR_PASSWORD env))
  then (404, "Not found")
  else if bool_decide (query !! "username" = JWT_GENERATOR_USERNAME env)
          && bool_decide (query !! "password" = JWT_GENERATOR_PASSWORD env)
  then (200, jwt_sign (VERIFY_TOKEN env) (SECRET_KEY env))
  else (401, "Forbidden").

Inductive Served :=
  | by_express (status : Z) (body : string)
  | by_express_no_route
  | by_tunnel (h : Handled).

(** [app(req, res)] for the only URL the listener hands to Express, which
    has no query string: [req.query] is the empty object. Express serves
    HEAD with the handler of GET. *)
Definition app (req : Request) : Served :=
  if (method req =? "GET")%string || (method req =? "HEAD")%string then
    let '(status, body) := tunnel_jwt_generator ∅ in by_express status body
  else by_express_no_route.

(** [httpServer.on('request', ...)] (the same body is attached to
    [http2Server]). *)
Definition on_request (ts : list TunnelSocketObj) (requestId : string)
    (req : Request) : Served :=
  let expressRoute := (url req =? "/tunnel_jwt_generator")%string in
  if expressRoute then app req
  else by_tunnel (handleRequest ts requestId req).

End TokenGenerator.

(* ===================================================================== *)
(** ** Frames of the control channel                                     *)
(* ===================================================================== *)

(** The two event families: the plain names and the [http2-] names. *)
Inductive Family := http1 | http2.

(** The request descriptor ([request] argument of the request event). *)
Record Descriptor := mkDescriptor {
  d_method : string;
  d_headers : gmap string string;
  d_path : string;
  d_httpVersion : option string
}.

(** One [socket.emit(event, id, arg)], by event. *)
Inductive Msg :=
  | m_request (id : string) (request : Descriptor)
  | m_request_pipe (id : string) (chunk : string)
  | m_request_pipes (id : string) (chunks : list string)
  | m_request_pipe_end (id : string)
  | m_request_pipe_error (id : string) (error : string)
  | m_response (id : string) (statusCode : Z) (statusMessage : string)
               (hs : gmap string string)
  | m_response_pipe (id : string) (data : string)
  | m_response_pipes (id : string) (data : list string)
  | m_response_pipe_end (id : string) (data : option string)
  | m_response_pipe_error (id : string) (error : string)
  | m_response_trailers (id : string) (trailers : gmap string string)
  | m_request_error (id : string) (error : string).

Record Frame := mkFrame { family : Family; msg : Msg }.

Definition msg_id (m : Msg) : string :=
  match m with
  | m_request id _ | m_request_pipe id _ | m_request_pipes id _
  | m_request_pipe_end id | m_request_pipe_error id _
  | m_response id _ _ _ | m_response_pipe id _ | m_response_pipes id _
  | m_response_pipe_end id _ | m_response_pipe_error id _
  | m_response_trailers id _ | m_request_error id _ => id
  end.

Definition frame_id (f : Frame) : string := msg_id (msg f).

Definition msg_name (m : Msg) : string :=
  match m with
  | m_request _ _ => "request"
  | m_request_pipe _ _ => "request-pipe"
  | m_request_pipes _ _ => "request-pipes"
  | m_request_pipe_end _ => "request-pipe-end"
  | m_request_pipe_error _ _ => "request-pipe-error"
  | m_response _ _ _ _ => "response"
  | m_response_pipe _ _ => "response-pipe"
  | m_response_pipes _ _ => "response-pipes"
  | m_response_pipe_end _ _ => "response-pipe-end"
  | m_response_pipe_error _ _ => "response-pipe-error"
  | m_response_trailers _ _ => "response-trailers"
  | m_request_error _ _ => "request-error"
  end.

(** The event name on the wire. *)
Definition event_name (f : Frame) : string :=
  match family f with
  | http1 => msg_name (msg f)
  | http2 => "http2-" ++ msg_name (msg f)
  end.

(* ===================================================================== *)
(** ** Tunnel streams writing to the control channel (lib2)              *)
(* ===================================================================== *)

Inductive Method := meth_write | meth_writev | meth_final | meth_destroy.

(** What happens on a control channel, in order: a frame is emitted by the
    call that holds completion callback [cb]; the transport ([socket.conn])
    emits ['drain']; a completion callback is invoked. *)
Inductive LogEntry :=
  | l_emit (cb : nat) (f : Frame)
  | l_drain
  | l_callback (m : Method) (cb : nat).

Record Channel := mkChannel {
  ch_log : list LogEntry;
  drain_once : list (Method * nat);   (* [conn.once('drain', ...)] listeners *)
  ch_next : nat                       (* names the next callback *)
}.

Definition channel_init : Channel := mkChannel [] [] 0%nat.

(** [this._socket.emit(f); this._socket.conn.once('drain', () => callback())] *)
Definition emit_once_drain (m : Method) (f : Frame) (ch : Channel) : Channel :=
  {| ch_log := ch_log ch ++ [l_emit (ch_next ch) f];
     drain_once := drain_once ch ++ [(m, ch_next ch)];
     ch_next := S (ch_next ch) |}.

(** [callback()] called directly. *)
Definition call_back (m : Method) (ch : Channel) : Channel :=
  {| ch_log := ch_log ch ++ [l_callback m (ch_next ch)];
     drain_once := drain_once ch;
     ch_next := S (ch_next ch) |}.

(** The transport emits ['drain']: every [once] listener runs and is
    detached. *)
Definition conn_drain (ch : Channel) : Channel :=
  {| ch_log := ch_log ch ++ l_drain :: map (fun c => l_callback (fst c) (snd c)) (drain_once ch);
     drain_once := [];
     ch_next := ch_next ch |}.

Definition HTTP2TunnelRequest_write (requestId chunk : string) : Channel -> Channel :=
  emit_once_drain meth_write (mkFrame http2 (m_request_pipe requestId chunk)).

Definition HTTP2TunnelRequest_writev (requestId : string) (chunks : list string)
    : Channel -> Channel :=
  emit_once_drain meth_writev (mkFrame http2 (m_request_pipes requestId chunks)).

Definition HTTP2TunnelRequest_final (requestId : string) : Channel -> Channel :=
  emit_once_drain meth_final (mkFrame http2 (m_request_pipe_end requestId)).

(** [e] is the message of the error passed to [_destroy], if any. *)
Definition HTTP2TunnelRequest_destroy (requestId : string) (e : option string)
    : Channel -> Channel :=
  match e with
  | Some message =>
      emit_once_drain meth_destroy (mkFrame http2 (m_request_pipe_error requestId message))
  | None => call_back meth_destroy
  end.

Definition HTTP2TunnelResponse_write (responseId chunk : string) : Channel -> Channel :=
  emit_once_drain meth_write (mkFrame http2 (m_response_pipe responseId chunk)).

Definition HTTP2TunnelResponse_writev (responseId : string) (chunks : list string)
    : Channel -> Channel :=
  emit_once_drain meth_writev (mkFrame http2 (m_response_pipes responseId chunks)).

Definition HTTP2TunnelResponse_final (responseId : string) : Channel -> Channel :=
  emit_once_drain meth_final (mkFrame http2 (m_response_pipe_end responseId None)).

Definition HTTP2TunnelResponse_destroy (responseId : string) (e : option string)
    : Channel -> Channel :=
  match e with
  | Some message =>
      emit_once_drain meth_destroy (mkFrame http2 (m_response_pipe_error responseId message))
  | None => call_back meth_destroy
  end.

(** Modelled from the spec: the HTTP/1 classes [TunnelRequest] and
    [TunnelResponse] ([./lib], which [lib2] requires) are not among the
    sources. The spec gives the HTTP/1 family the same events under the
    unprefixed names and the same backpressure rule: after emitting a body
    chunk, a batch or an end frame the emitter awaits the drain signal of the
    transport before it acknowledges its upstream source. *)
Definition TunnelRequest_write (requestId chunk : string) : Channel -> Channel :=
  emit_once_drain meth_write (mkFrame http1 (m_request_pipe requestId chunk)).

(** Modelled from the spec: see [TunnelRequest_write]. *)
Definition TunnelRequest_writev (requestId : string) (chunks : list string)
    : Channel -> Channel :=
  emit_once_drain meth_writev (mkFrame http1 (m_request_pipes requestId chunks)).

(** Modelled from the spec: see [TunnelRequest_write]. *)
Definition TunnelRequest_final (requestId : string) : Channel -> Channel :=
  emit_once_drain meth_final (mkFrame http1 (m_request_pipe_end requestId)).

(** Modelled from the spec: see [TunnelRequest_write]. *)
Definition TunnelResponse_write (responseId chunk : string) : Channel -> Channel :=
  emit_once_drain meth_write (mkFrame http1 (m_response_pipe responseId chunk)).

(** Modelled from the spec: see [TunnelRequest_write]. *)
Definition TunnelResponse_writev (responseId : string) (chunks : list string)
    : Channel -> Channel :=
  emit_once_drain meth_writev (mkFrame http1 (m_response_pipes responseId chunks)).

(** Modelled from the spec: see [TunnelRequest_write]. *)
Definition TunnelResponse_final (responseId : string) : Channel -> Channel :=
  emit_once_drain meth_final (mkFrame http1 (m_response_pipe_end responseId None)).

Inductive StreamClass :=
  | cls_TunnelRequest | cls_TunnelResponse
  | cls_HTTP2TunnelRequest | cls_HTTP2TunnelResponse.

(** What can happen on one control channel: a method of some tunnel stream
    is called by the stream machinery, or the transport drains. *)
Inductive ChannelOp :=
  | op_write (c : StreamClass) (id chunk : string)
  | op_writev (c : StreamClass) (id : string) (chunks : list string)
  | op_final (c : StreamClass) (id : string)
  | op_destroy_http2 (request_side : bool) (id : string) (e : option string)
  | op_drain.

Definition channel_step (ch : Channel) (op : ChannelOp) : Channel :=
  match op with
  | op_write cls_TunnelRequest id chunk => TunnelRequest_write id chunk ch
  | op_write cls_TunnelResponse id chunk => TunnelResponse_write id chunk ch
  | op_write cls_HTTP2TunnelRequest id chunk => HTTP2TunnelRequest_write id chunk ch
  | op_write cls_HTTP2TunnelResponse id chunk => HTTP2TunnelResponse_write id chunk ch
  | op_writev cls_TunnelRequest id chunks => TunnelRequest_writev id chunks ch
  | op_writev cls_TunnelResponse id chunks => TunnelResponse_writev id chunks ch
  | op_writev cls_HTTP2TunnelRequest id chunks => HTTP2TunnelRequest_writev id chunks ch
  | op_writev cls_HTTP2TunnelResponse id chunks => HTTP2TunnelResponse_writev id chunks ch
  | op_final cls_TunnelRequest id => TunnelRequest_final id ch
  | op_final cls_TunnelResponse id => TunnelResponse_final id ch
  | op_final cls_HTTP2TunnelRequest id => HTTP2TunnelRequest_final id ch
  | op_final cls_HTTP2TunnelResponse id => HTTP2TunnelResponse_final id ch
  | op_destroy_http2 true id e => HTTP2TunnelRequest_destroy id e ch
  | op_destroy_http2 false id e => HTTP2TunnelResponse_destroy id e ch
  | op_drain => conn_drain ch
  end.

Definition channel_run (ops : list ChannelOp) : Channel :=
  fold_left channel_step ops channel_init.

(** The body, batch and end frames of either side and family. *)
Definition is_body_frame (f : Frame) : bool :=
  match msg f with
  | m_request_pipe _ _ | m_request_pipes _ _ | m_request_pipe_end _
  | m_response_pipe _ _ | m_response_pipes _ _ | m_response_pipe_end _ _ => true
  | _ => false
  end.

(* ===================================================================== *)
(** ** One tunneled request at the edge: [HTTP2TunnelResponse] wired by
       [handleHTTP2Request] to the public response [res]                 *)
(* ===================================================================== *)

(** The status line and header block once written. [None] as message is the
    default reason phrase of the code. *)
Record Head := mkHead {
  h_status : Z;
  h_message : option string;
  h_headers : gmap string string
}.

(** The public response [res]. *)
Record ServerResponse := mkServerResponse {
  statusCode : Z;
  head : option Head;
  body : list string;
  finished : bool
}.

Definition res_init : ServerResponse := mkServerResponse 200 None [] false.

Definition implicit_head (res : ServerResponse) : option Head :=
  match head res with
  | Some h => Some h
  | None => Some (mkHead (statusCode res) None ∅)
  end.

(** [res.statusCode = c] *)
Definition res_set_statusCode (c : Z) (res : ServerResponse) : ServerResponse :=
  mkServerResponse c (head res) (body res) (finished res).

(** [res.writeHead(c, m, hs)]; it throws once the head is out, and what was
    sent stays as it is. *)
Definition res_writeHead (c : Z) (m : string) (hs : gmap string string)
    (res : ServerResponse) : ServerResponse :=
  match head res with
  | Some _ => res
  | None =>
      if finished res then res
      else mkServerResponse c (Some (mkHead c (Some m) hs)) (body res) false
  end.

(** [res.write(chunk)] *)
Definition res_write (chunk : string) (res : ServerResponse) : ServerResponse :=
  if finished res then res
  else mkServerResponse (statusCode res) (implicit_head res) (body res ++ [chunk]) false.

(** [res.end(data)] and [res.end()] *)
Definition res_end (data : option string) (res : ServerResponse) : ServerResponse :=
  if finished res then res
  else mkServerResponse (statusCode res) (implicit_head res)
         (body res ++ match data with Some d => [d] | None => [] end) true.

(** The listeners the constructor of [HTTP2TunnelResponse] attaches to the
    socket; [true] while attached. *)
Record SocketListeners := mkSocketListeners {
  on_http2_response : bool;
  on_http2_response_pipe : bool;
  on_http2_response_pipes : bool;
  on_http2_response_pipe_error : bool;
  on_http2_response_pipe_end : bool;
  on_http2_response_trailers : bool;
  on_http2_request_error : bool
}.

Record EdgeRequest := mkEdgeRequest {
  _responseId : string;
  _trailers : option (gmap string string);
  listeners : SocketListeners;
  destroyed : bool;                 (* the tunnel response was destroyed *)
  ended : bool;                     (* [push(null)] was called *)
  once_requestError : bool;         (* [tunnelResponse.once('requestError', ...)] *)
  once_response : bool;             (* [tunnelResponse.once('response', ...)] *)
  trailers_events : list (gmap string string);  (* ['trailers'] emitted, no listener *)
  res : ServerResponse;
  sent : list Frame                 (* frames the tunnel response emitted *)
}.

Definition set_listeners (l : SocketListeners) (r : EdgeRequest) : EdgeRequest :=
  mkEdgeRequest (_responseId r) (_trailers r) l (destroyed r) (ended r)
    (once_requestError r) (once_response r) (trailers_events r) (res r) (sent r).

Definition set_res (x : ServerResponse) (r : EdgeRequest) : EdgeRequest :=
  mkEdgeRequest (_responseId r) (_trailers r) (listeners r) (destroyed r) (ended r)
    (once_requestError r) (once_response r) (trailers_events r) x (sent r).

(** [this._socket.off] of the five body listeners. *)
Definition off_body_listeners (l : SocketListeners) : SocketListeners :=
  mkSocketListeners (on_http2_response l) false false false false false
    (on_http2_request_error l).

(** [this.push(data)], with [tunnelResponse.pipe(res)] in place. *)
Definition push (data : string) (r : EdgeRequest) : EdgeRequest :=
  if destroyed r || ended r then r
  else set_res (res_write data (res r)) r.

(** [this.push(null)] *)
Definition push_null (r : EdgeRequest) : EdgeRequest :=
  if destroyed r || ended r then r
  else mkEdgeRequest (_responseId r) (_trailers r) (listeners r) (destroyed r) true
         (once_requestError r) (once_response r) (trailers_events r)
         (res_end None (res r)) (sent r).

(** [this.destroy(e)], which runs [_destroy(e, callback)] once. *)
Definition destroy (e : option string) (r : EdgeRequest) : EdgeRequest :=
  if destroyed r then r
  else mkEdgeRequest (_responseId r) (_trailers r) (listeners r) true (ended r)
         (once_requestError r) (once_response r) (trailers_events r) (res r)
         (sent r ++ match e with
                    | Some message =>
                        [mkFrame http2 (m_response_pipe_error (_responseId r) message)]
                    | None => []
                    end).

(** [onResponse] of [handleHTTP2Request]. Its [off('requestError')] is
    called on the tunnel request, which carries no such listener. *)
Definition handleHTTP2Request_onResponse (c : Z) (m : string)
    (hs : gmap string string) (r : EdgeRequest) : EdgeRequest :=
  let responseHeaders := delete ":status" hs in
  set_res (res_writeHead c m responseHeaders (res r)) r.

(** [onRequestError] of [handleHTTP2Request]. *)
Definition handleHTTP2Request_onRequestError (r : EdgeRequest) : EdgeRequest :=
  let r1 := mkEdgeRequest (_responseId r) (_trailers r) (listeners r) (destroyed r)
              (ended r) (once_requestError r) false (trailers_events r) (res r) (sent r) in
  let r2 := destroy None r1 in
  set_res (res_end (Some "Request error") (res_set_statusCode 502 (res r2))) r2.

(** [this.emit('response', ...)] *)
Definition emit_response (c : Z) (m : string) (hs : gmap string string)
    (r : EdgeRequest) : EdgeRequest :=
  if once_response r then
    handleHTTP2Request_onResponse c m hs
      (mkEdgeRequest (_responseId r) (_trailers r) (listeners r) (destroyed r)
         (ended r) (once_requestError r) false (trailers_events r) (res r) (sent r))
  else r.

(** [this.emit('requestError', error)] *)
Definition emit_requestError (r : EdgeRequest) : EdgeRequest :=
  if once_requestError r then
    handleHTTP2Request_onRequestError
      (mkEdgeRequest (_responseId r) (_trailers r) (listeners r) (destroyed r)
         (ended r) false (once_response r) (trailers_events r) (res r) (sent r))
  else r.

Definition onResponse (responseId : string) (c : Z) (m : string)
    (hs : gmap string string) (r : EdgeRequest) : EdgeRequest :=
  if bool_decide (_responseId r = responseId) then
    let l := listeners r in
    emit_response c m hs
      (set_listeners
         (mkSocketListeners false (on_http2_response_pipe l) (on_http2_response_pipes l)
            (on_http2_response_pipe_error l) (on_http2_response_pipe_end l)
            (on_http2_response_trailers l) false) r)
  else r.

Definition onResponsePipe (responseId data : string) (r : EdgeRequest) : EdgeRequest :=
  if bool_decide (_responseId r = responseId) then push data r else r.

Definition onResponsePipes (responseId : string) (data : list string)
    (r : EdgeRequest) : EdgeRequest :=
  if bool_decide (_responseId r = responseId)
  then fold_left (fun r chunk => push chunk r) data r
  else r.

Definition onResponsePipeError (responseId error : string) (r : EdgeRequest)
    : EdgeRequest :=
  if negb (bool_decide (_responseId r = responseId)) then r
  else destroy (Some error) (set_listeners (off_body_listeners (listeners r)) r).

Definition onResponsePipeEnd (responseId : string) (data : option string)
    (r : EdgeRequest) : EdgeRequest :=
  if negb (bool_decide (_responseId r = responseId)) then r
  else
    let r1 := match data with Some d => push d r | None => r end in
    let r2 := match _trailers r1 with
              | Some t =>
                  mkEdgeRequest (_responseId r1) (_trailers r1) (listeners r1)
                    (destroyed r1) (ended r1) (once_requestError r1) (once_response r1)
                    (trailers_events r1 ++ [t]) (res r1) (sent r1)
              | None => r1
              end in
    push_null (set_listeners (off_body_listeners (listeners r2)) r2).

Definition onResponseTrailers (responseId : string) (trailers : gmap string string)
    (r : EdgeRequest) : EdgeRequest :=
  if bool_decide (_responseId r = responseId) then
    mkEdgeRequest (_responseId r) (Some trailers) (listeners r) (destroyed r) (ended r)
      (once_requestError r) (once_response r) (trailers_events r) (res r) (sent r)
  else r.

Definition onRequestError (requestId : string) (r : EdgeRequest) : EdgeRequest :=
  if bool_decide (requestId = _responseId r) then
    emit_requestError
      (set_listeners (mkSocketListeners false false false false false false false) r)
  else r.

(** The state [handleHTTP2Request] sets up for [requestId] on the response
    side: the tunnel response with its seven socket listeners, the two [once]
    listeners and the pipe into [res]. The request side writes to the
    channel (see [channel_step]); the listeners for ['disconnect'] and
    ['close'] are not driven by frames and stay outside this state. *)
Definition handleHTTP2Request (requestId : string) : EdgeRequest :=
  mkEdgeRequest requestId None
    (mkSocketListeners true true true true true true true)
    false false true true [] res_init [].

(** The socket delivers a frame to the listeners this request has attached
    under the name of the frame. *)
Definition deliver (r : EdgeRequest) (f : Frame) : EdgeRequest :=
  match family f with
  | http1 => r
  | http2 =>
      let l := listeners r in
      match msg f with
      | m_response id c m hs =>
          if on_http2_response l then onResponse id c m hs r else r
      | m_response_pipe id data =>
          if on_http2_response_pipe l then onResponsePipe id data r else r
      | m_response_pipes id data =>
          if on_http2_response_pipes l then onResponsePipes id data r else r
      | m_response_pipe_error id error =>
          if on_http2_response_pipe_error l then onResponsePipeError id error r else r
      | m_response_pipe_end id data =>
          if on_http2_response_pipe_end l then onResponsePipeEnd id data r else r
      | m_response_trailers id trailers =>
          if on_http2_response_trailers l then onResponseTrailers id trailers r else r
      | m_request_error id _ =>
          if on_http2_request_error l then onRequestError id r else r
      | _ => r
      end
  end.

Definition deliver_all (fs : list Frame) (r : EdgeRequest) : EdgeRequest :=
  fold_left deliver fs r.

(** All requests in flight on one tunnel socket: every frame the socket
    receives goes to the listeners of each of them. *)
Definition socket_receive (rs : list EdgeRequest) (f : Frame) : list EdgeRequest :=
  map (fun r => deliver r f) rs.

Definition socket_receive_all (fs : list Frame) (rs : list EdgeRequest)
    : list EdgeRequest :=
  fold_left socket_receive fs rs.

(** The frame the constructor of [HTTP2TunnelRequest] emits, once the
    constructor of its parent class has run, for the request descriptor
    [handleHTTP2Request] builds. *)
Definition http2_request_frame (url_port : string -> option string)
    (requestId : string) (req : Request) : option Frame :=
  match getReqHeaders url_port req with
  | None => None
  | Some hs =>
      Some (mkFrame http2
              (m_request requestId (mkDescriptor (method req) hs (url req) (Some "2.0"))))
  end.

(* ===================================================================== *)
(** ** Header conversion (lib2)                                          *)
(* ===================================================================== *)

(** [if (result[from]) { result[to] = result[from]; delete result[from]; }] *)
Definition rename_header (from to : string) (result : gmap string string)
    : gmap string string :=
  if truthy (result !! from)
  then delete from (<[ to := or_empty (result !! from) ]> result)
  else result.

Definition convertHTTP2HeadersToHTTP1 (hs : gmap string string) : gmap string string :=
  rename_header ":status" "status"
    (rename_header ":scheme" "scheme"
       (rename_header ":authority" "host"
          (rename_header ":path" "path"
             (rename_header ":method" "method" hs)))).

Definition is_grpc (hs : gmap string string) : bool :=
  truthy (hs !! "content-type")
  && includes (or_empty (hs !! "content-type")) "application/grpc".

Definition convertHTTP1HeadersToHTTP2 (hs : gmap string string)
    (method path : string) : gmap string string :=
  let r1 := if truthy (Some method) then <[ ":method" := method ]> hs else hs in
  let r2 := if truthy (Some path) then <[ ":path" := path ]> r1 else r1 in
  let r3 := if truthy (hs !! "host")
            then <[ ":authority" := or_empty (hs !! "host") ]> r2 else r2 in
  let r4 := <[ ":scheme" := "https" ]> r3 in
  if is_grpc hs
  then <[ "te" := "trailers" ]> (<[ "content-type" := or_empty (hs !! "content-type") ]> r4)
  else r4.

(* ===================================================================== *)
(** ** The agent (http2client-example)                                   *)
(* ===================================================================== *)

(** The sources hold two revisions of the agent: [http2client-example.js]
    and an earlier one (unnamed part 003). *)
Inductive AgentVersion := http2client_example | part_003.

(** An origin stream returned by [localClient.request(headers)], with the
    values its listeners close over. *)
Record OriginStream := mkOriginStream {
  os_headers : gmap string string;
  os_written : list string;
  os_ended : bool;
  os_destroyed : option string;
  os_closed : bool;
  os_requestId : string;
  os_family : Family;
  os_isGrpc : bool
}.

Record AgentState := mkAgentState {
  localClient : option bool;           (* [None]: unset or null; [Some d]: a
                                          session whose [destroyed] is [d] *)
  activeRequests : gmap string nat;    (* request id to stream, by handle *)
  streams : list OriginStream;         (* every stream opened so far *)
  emitted : list Frame;                (* [socket.emit] *)
  reconnect_timers : nat               (* pending [setTimeout] reconnects *)
}.

Definition agent_init : AgentState := mkAgentState None ∅ [] [] 0%nat.

(** Events of the origin side that the agent listens to. *)
Inductive OriginEvent :=
  | stream_response (handle : nat) (hs : gmap string string)
  | stream_data (handle : nat) (chunk : string)
  | stream_end (handle : nat)
  | stream_error (handle : nat) (message : string)
  | stream_trailers (handle : nat) (hs : gmap string string)
  | stream_wantTrailers (handle : nat)
  | client_error
  | client_close
  | timer_fires
  | socket_connect.

Inductive AgentInput :=
  | from_socket (f : Frame)
  | from_origin (e : OriginEvent).

Definition toLowerCase_ascii (c : ascii) : ascii :=
  let n := nat_of_ascii c in
  if ((65 <=? n) && (n <=? 90))%nat then ascii_of_nat (n + 32) else c.

Fixpoint toLowerCase (s : string) : string :=
  match s with
  | EmptyString => EmptyString
  | String c s' => String (toLowerCase_ascii c) (toLowerCase s')
  end.

Definition is_grpc_key (key : string) : bool :=
  indexOf (toLowerCase key) "grpc-" =? 0.

Definition set_emitted (fs : list Frame) (a : AgentState) : AgentState :=
  mkAgentState (localClient a) (activeRequests a) (streams a) fs (reconnect_timers a).

Definition emit (f : Frame) (a : AgentState) : AgentState :=
  set_emitted (emitted a ++ [f]) a.

Definition set_stream (handle : nat) (s : OriginStream) (a : AgentState) : AgentState :=
  mkAgentState (localClient a) (activeRequests a) (<[ handle := s ]> (streams a))
    (emitted a) (reconnect_timers a).

Definition activeRequests_delete (requestId : string) (a : AgentState) : AgentState :=
  mkAgentState (localClient a) (delete requestId (activeRequests a)) (streams a)
    (emitted a) (reconnect_timers a).

(** [activeRequests.get(requestId)] *)
Definition activeRequests_get (requestId : string) (a : AgentState)
    : option (nat * OriginStream) :=
  match activeRequests a !! requestId with
  | Some handle =>
      match streams a !! handle with
      | Some s => Some (handle, s)
      | None => None
      end
  | None => None
  end.

(** [stream.write(chunk)], [stream.end()], [stream.destroy(new Error(e))],
    [stream.close()] *)
Definition os_write (chunk : string) (s : OriginStream) : OriginStream :=
  if os_ended s || bool_decide (os_destroyed s ≠ None) then s
  else mkOriginStream (os_headers s) (os_written s ++ [chunk]) (os_ended s)
         (os_destroyed s) (os_closed s) (os_requestId s) (os_family s) (os_isGrpc s).

Definition os_end (s : OriginStream) : OriginStream :=
  mkOriginStream (os_headers s) (os_written s) true (os_destroyed s) (os_closed s)
    (os_requestId s) (os_family s) (os_isGrpc s).

Definition os_destroy (e : string) (s : OriginStream) : OriginStream :=
  match os_destroyed s with
  | Some _ => s
  | None =>
      mkOriginStream (os_headers s) (os_written s) (os_ended s) (Some e) (os_closed s)
        (os_requestId s) (os_family s) (os_isGrpc s)
  end.

Definition os_close (s : OriginStream) : OriginStream :=
  mkOriginStream (os_headers s) (os_written s) (os_ended s) (os_destroyed s) true
    (os_requestId s) (os_family s) (os_isGrpc s).

Section Agent.

Variable version : AgentVersion.
(** The outcomes the platform decides: whether [http2.connect] throws,
    the message [localClient.request] throws with (if it does), whether a
    [stream.write] reports room for more, [parseInt(s, 10)], and the
    status-message table. *)
Variable connect_throws : bool.
Variable request_throws : gmap string string -> option string.
Variable write_ok : OriginStream -> string -> bool.
Variable parseInt : string -> Z.
Variable HTTP_STATUS_CODES : Z -> option string.

Definition createLocalClient (a : AgentState) : AgentState :=
  match version with
  | http2client_example =>
      if connect_throws
      then mkAgentState None (activeRequests a) (streams a) (emitted a)
             (S (reconnect_timers a))
      else mkAgentState (Some false) (activeRequests a) (streams a) (emitted a)
             (reconnect_timers a)
  | part_003 =>
      if connect_throws then a
      else mkAgentState (Some false) (activeRequests a) (streams a) (emitted a)
             (reconnect_timers a)
  end.

(** [!localClient || localClient.destroyed] *)
Definition not_connected (a : AgentState) : bool :=
  match localClient a with
  | None => true
  | Some d => d
  end.

(** The headers handed to [localClient.request]. *)
Definition origin_headers (fam : Family) (request : Descriptor) : gmap string string :=
  let hs := convertHTTP1HeadersToHTTP2 (d_headers request) (d_method request)
              (d_path request) in
  match version, fam with
  | http2client_example, http2 =>
      if is_grpc (d_headers request) then
        filter (λ kv, is_grpc_key kv.1 = true) (d_headers request)
          ∪ <[ "te" := "trailers" ]> hs
      else hs
  | _, _ => hs
  end.

(** [socket.on('http2-request', ...)] and [socket.on('request', ...)] *)
Definition on_request_frame (fam : Family) (requestId : string)
    (request : Descriptor) (a : AgentState) : AgentState :=
  if not_connected a then
    let a1 := match version with
              | http2client_example => createLocalClient a
              | part_003 => a
              end in
    emit (mkFrame fam (m_request_error requestId "Local HTTP/2 client not connected")) a1
  else
    let hs := origin_headers fam request in
    match request_throws hs with
    | Some message => emit (mkFrame fam (m_request_error requestId message)) a
    | None =>
        let handle := length (streams a) in
        let stream :=
          mkOriginStream hs [] false None false requestId fam
            (match version, fam with
             | http2client_example, http2 => is_grpc (d_headers request)
             | _, _ => false
             end) in
        mkAgentState (localClient a) (<[ requestId := handle ]> (activeRequests a))
          (streams a ++ [stream]) (emitted a) (reconnect_timers a)
    end.

(** The loop of ['http2-request-pipes'] in [http2client-example.js], which
    stops at the first write that reports no room. *)
Fixpoint write_until_full (chunks : list string) (s : OriginStream) : OriginStream :=
  match chunks with
  | [] => s
  | chunk :: rest =>
      if write_ok s chunk then write_until_full rest (os_write chunk s)
      else os_write chunk s
  end.

Definition write_all (chunks : list string) (s : OriginStream) : OriginStream :=
  fold_left (fun s chunk => os_write chunk s) chunks s.

Definition on_request_pipe (requestId chunk : string) (a : AgentState) : AgentState :=
  match activeRequests_get requestId a with
  | Some (handle, stream) => set_stream handle (os_write chunk stream) a
  | None => a
  end.

Definition on_request_pipes (fam : Family) (requestId : string)
    (chunks : list string) (a : AgentState) : AgentState :=
  match activeRequests_get requestId a with
  | Some (handle, stream) =>
      set_stream handle
        (match version, fam with
         | http2client_example, http2 => write_until_full chunks stream
         | _, _ => write_all chunks stream
         end) a
  | None => a
  end.

Definition on_request_pipe_end (requestId : string) (a : AgentState) : AgentState :=
  match activeRequests_get requestId a with
  | Some (handle, stream) => set_stream handle (os_end stream) a
  | None => a
  end.

Definition on_request_pipe_error (requestId error : string) (a : AgentState)
    : AgentState :=
  match activeRequests_get requestId a with
  | Some (handle, stream) =>
      activeRequests_delete requestId (set_stream handle (os_destroy error stream) a)
  | None => a
  end.

(** The socket listeners of the agent. It listens to the request side of
    both families and to nothing else. *)
Definition agent_on_frame (f : Frame) (a : AgentState) : AgentState :=
  match msg f with
  | m_request id request => on_request_frame (family f) id request a
  | m_request_pipe id chunk => on_request_pipe id chunk a
  | m_request_pipes id chunks => on_request_pipes (family f) id chunks a
  | m_request_pipe_end id => on_request_pipe_end id a
  | m_request_pipe_error id error => on_request_pipe_error id error a
  | _ => a
  end.

(** The listeners attached to an origin stream and to the session. *)
Definition agent_on_origin (e : OriginEvent) (a : AgentState) : AgentState :=
  match e with
  | stream_response handle hs =>
      match streams a !! handle with
      | Some s =>
          let responseHeaders :=
            if os_isGrpc s
            then filter (λ kv, is_grpc_key kv.1 = true) hs ∪ convertHTTP2HeadersToHTTP1 hs
            else convertHTTP2HeadersToHTTP1 hs in
          let statusCode :=
            if truthy (hs !! ":status") then parseInt (or_empty (hs !! ":status"))
            else 200 in
          let statusMessage :=
            match version with
            | http2client_example =>
                if truthy (HTTP_STATUS_CODES statusCode)
                then or_empty (HTTP_STATUS_CODES statusCode) else "OK"
            | part_003 => "OK"
            end in
          emit (mkFrame (os_family s)
                  (m_response (os_requestId s) statusCode statusMessage responseHeaders)) a
      | None => a
      end
  | stream_data handle chunk =>
      match streams a !! handle with
      | Some s => emit (mkFrame (os_family s) (m_response_pipe (os_requestId s) chunk)) a
      | None => a
      end
  | stream_end handle =>
      match streams a !! handle with
      | Some s =>
          activeRequests_delete (os_requestId s)
            (emit (mkFrame (os_family s) (m_response_pipe_end (os_requestId s) None)) a)
      | None => a
      end
  | stream_error handle message =>
      match streams a !! handle with
      | Some s =>
          activeRequests_delete (os_requestId s)
            (emit (mkFrame (os_family s)
                     (m_response_pipe_error (os_requestId s) message)) a)
      | None => a
      end
  | stream_trailers handle hs =>
      match streams a !! handle with
      | Some s =>
          match version, os_family s with
          | http2client_example, http2 =>
              if bool_decide (hs = ∅) then a
              else emit (mkFrame http2 (m_response_trailers (os_requestId s) hs)) a
          | _, _ => a
          end
      | None => a
      end
  | stream_wantTrailers handle =>
      match streams a !! handle with
      | Some s =>
          match version, os_family s with
          | part_003, http2 => set_stream handle (os_close s) a
          | _, _ => a
          end
      | None => a
      end
  | client_error | client_close =>
      mkAgentState
        (match version with
         | http2client_example => None
         | part_003 => localClient a
         end)
        (activeRequests a) (streams a) (emitted a) (S (reconnect_timers a))
  | timer_fires =>
      match reconnect_timers a with
      | O => a
      | S n =>
          createLocalClient
            (mkAgentState (localClient a) (activeRequests a) (streams a) (emitted a) n)
      end
  | socket_connect =>
      match version with
      | http2client_example =>
          if bool_decide (localClient a = None) then createLocalClient a else a
      | part_003 => createLocalClient a
      end
  end.

Definition agent_step (a : AgentState) (i : AgentInput) : AgentState :=
  match i with
  | from_socket f => agent_on_frame f a
  | from_origin e => agent_on_origin e a
  end.

Definition agent_run (inputs : list AgentInput) : AgentState :=
  fold_left agent_step inputs agent_init.

End Agent.

(* ===================================================================== *)
(** ** The rest of the edge server: upgrades, disconnection, aborts      *)
(* ===================================================================== *)

Definition webTunnelPath : string := "/$web_tunnel".

(** The value of a header of a response descriptor: a string, or an array
    of strings for a repeated header. *)
Inductive HeaderValue :=
  | hv_string (value : string)
  | hv_array (values : list string).

(** The two characters [\r\n]. *)
Definition CRLF : string :=
  String (ascii_of_nat 13) (String (ascii_of_nat 10) EmptyString).

(** [Array.prototype.join(sep)] *)
Fixpoint js_join (sep : string) (l : list string) : string :=
  match l with
  | [] => ""
  | [x] => x
  | x :: rest => x ++ sep ++ js_join sep rest
  end.

(** [key + ': ' + value] *)
Definition header_line (key value : string) : string := key ++ ": " ++ value.

(** [createSocketHttpHeader(line, headers)]; [headers] lists the keys of the
    object in the order [Object.keys] gives them. *)
Definition createSocketHttpHeader (line : string)
    (hs : list (string * HeaderValue)) : string :=
  js_join CRLF
    (fold_left
       (fun (head : list string) (kv : string * HeaderValue) =>
          match snd kv with
          | hv_string value => (head ++ [header_line (fst kv) value])%list
          | hv_array values =>
              fold_left (fun (head : list string) v => (head ++ [header_line (fst kv) v])%list)
                values head
          end)
       hs [line])
  ++ CRLF ++ CRLF.

(** What [handleUpgrade] does with an upgrade request. *)
Inductive Upgrade :=
  | upgrade_return
  | upgrade_socket_destroy
  | upgrade_tunnel (tunnelSocket : Socket) (requestId : string).

Definition handleUpgrade (ts : list TunnelSocketObj) (requestId : string)
    (req : Request) : Upgrade :=
  if indexOf (url req) webTunnelPath =? 0 then upgrade_return
  else
    match getAvailableTunnelSocket (headers req !! "host") (url req) ts with
    | None => upgrade_socket_destroy
    | Some tunnelSocketObj => upgrade_tunnel (socket tunnelSocketObj) requestId
    end.

(** The decimal digits of [`${n}`]. *)
Definition show_number (n : Z) : string := NilZero.string_of_int (Z.to_int n).

(** What [onResponse] of [handleUpgrade] does to the raw socket and to the
    tunnel response. *)
Record UpgradeOutcome := mkUpgradeOutcome {
  raw_written : list string;        (* [socket.write] *)
  raw_ended : bool;                 (* [socket.end()] *)
  response_destroyed : bool;        (* [tunnelResponse.destroy()] *)
  spliced : bool                    (* the two [pipe] calls *)
}.

(** [statusCode] is [None] when the descriptor carries none; [0] is falsy as
    well. *)
Definition handleUpgrade_onResponse (statusCode : option Z)
    (statusMessage : option string) (hs : option (list (string * HeaderValue)))
    (httpVersion : option string) : UpgradeOutcome :=
  match statusCode with
  | Some code =>
      if code =? 0 then mkUpgradeOutcome [] true true false
      else
        let head :=
          createSocketHttpHeader
            ("HTTP/" ++ (if truthy httpVersion then or_empty httpVersion else "1.1")
               ++ " " ++ show_number code ++ " "
               ++ (if truthy statusMessage then or_empty statusMessage else "OK"))
            (match hs with Some l => l | None => [] end) in
        if negb (code =? 101) then mkUpgradeOutcome [head] true true false
        else mkUpgradeOutcome [head] false false true
  | None => mkUpgradeOutcome [] true true false
  end.

(** One tunneled request with the two listeners [handleHTTP2Request] (and,
    with the same code, [handleHTTP1Request]) attaches besides the frame
    listeners: [tunnelSocket.once('disconnect', onSocketError)] and
    [res.once('close', onResClose)]. *)
Record Exchange := mkExchange {
  ex_request : EdgeRequest;
  once_disconnect : bool;
  once_close : bool
}.

Definition exchange_init (requestId : string) : Exchange :=
  mkExchange (handleHTTP2Request requestId) true true.

(** [onSocketError] *)
Definition onSocketError (ex : Exchange) : Exchange :=
  let r := ex_request ex in
  mkExchange (set_res (res_end None (res_set_statusCode 500 (res r))) r)
    (once_disconnect ex) false.

(** [onResClose] *)
Definition onResClose (ex : Exchange) : Exchange :=
  mkExchange (ex_request ex) false (once_close ex).

Inductive ExchangeInput :=
  | ex_frame (f : Frame)
  | ex_disconnect            (* the tunnel socket emits ['disconnect'] *)
  | ex_close.                (* [res] emits ['close'] *)

Definition exchange_step (ex : Exchange) (i : ExchangeInput) : Exchange :=
  match i with
  | ex_frame f => mkExchange (deliver (ex_request ex) f) (once_disconnect ex) (once_close ex)
  | ex_disconnect =>
      if once_disconnect ex
      then onSocketError (mkExchange (ex_request ex) false (once_close ex))
      else ex
  | ex_close =>
      if once_close ex
      then onResClose (mkExchange (ex_request ex) (once_disconnect ex) false)
      else ex
  end.

Definition exchange_run (inputs : list ExchangeInput) (ex : Exchange) : Exchange :=
  fold_left exchange_step inputs ex.

(** [onReqError] of [handleHTTP2Request]:
    [tunnelRequest.destroy(new Error(e || 'Aborted'))]. *)
Definition handleHTTP2Request_onReqError (requestId : string) (e : option string)
    : Channel -> Channel :=
  HTTP2TunnelRequest_destroy requestId
    (Some (if truthy e then or_empty e else "Aborted")).

(** [isGrpcRequest(headers)] of lib2, as the truth value of what it
    returns; [None] is a missing [headers] argument. *)
Definition isGrpcRequest (hs : option (gmap string string)) : bool :=
  match hs with
  | None => false
  | Some h =>
      (match h !! "content-type" with
       | Some ct => includes ct "application/grpc"
       | None => false
       end)
      || truthy (h !! "grpc-encoding") || truthy (h !! "grpc-accept-encoding")
  end.

(** The frames a control channel carried, in order. *)
Definition emitted_frames (ch : Channel) : list Frame :=
  flat_map (fun e => match e with l_emit _ f => [f] | _ => [] end) (ch_log ch).

(** The agent receives frames one after the other. *)
Definition agent_receive (version : AgentVersion) (connect_throws : bool)
    (request_throws : gmap string string -> option string)
    (write_ok : OriginStream -> string -> bool)
    (fs : list Frame) (a : AgentState) : AgentState :=
  fold_left (fun a f => agent_on_frame version connect_throws request_throws write_ok f a)
    fs a.

(** The origin raises events one after the other. *)
Definition agent_origin_events (version : AgentVersion) (connect_throws : bool)
    (parseInt : string -> Z) (HTTP_STATUS_CODES : Z -> option string)
    (es : list OriginEvent) (a : AgentState) : AgentState :=
  fold_left (fun a e => agent_on_origin version connect_throws parseInt HTTP_STATUS_CODES e a)
    es a.

(* ===================================================================== *)
(** ** Vocabulary of the properties                                      *)
(* ===================================================================== *)

(** [u] starts with [p]. *)
Definition starts_with (u p : string) : Prop := exists rest, u = p ++ rest.

(** [p] occurs in [s]. *)
Definition occurs_in (s p : string) : Prop := exists before rest, s = before ++ p ++ rest.

(** [b] is not strictly in front of [a] under the comparator [cmp]. *)
Definition not_after {A} (cmp : A -> A -> Z) (a b : A) : Prop := ~ cmp b a < 0.

(** The set the resolve operation chooses from: the registrations of [R]
    for host [h] whose prefix is empty (or unset) or starts [u]. *)
Definition eligible (R : list TunnelSocketObj) (h : option string) (u : string)
    (r : TunnelSocketObj) : Prop :=
  In r R /\ host r = h /\
  (truthy (pathPrefix r) = false \/ starts_with u (or_empty (pathPrefix r))).

(** Length of the prefix of a registration; [0] for the empty and the unset
    prefix. *)
Definition prefix_length (r : TunnelSocketObj) : Z :=
  jslength (or_empty (pathPrefix r)).

(** The key of a registration. *)
Definition key_of (r : TunnelSocketObj) : option string * option string :=
  (host r, pathPrefix r).

(** The key a handshake derives: the Host and the [path-prefix] headers. *)
Definition socket_key (sock : Socket) : option string * option string :=
  (handshake_headers sock !! "host", handshake_headers sock !! "path-prefix").

(** What holds of every state the edge reaches. *)
Record edge_inv (st : EdgeState) : Prop := mk_edge_inv {
  inv_unique : List.NoDup (map key_of (tunnelSockets st));
  inv_owner : forall r, In r (tunnelSockets st) ->
                key_of r = socket_key (socket r)
                /\ In (socket r) (disconnect_listeners st);
  inv_listener : forall sock, In sock (disconnect_listeners st) ->
                   exists r, In r (tunnelSockets st) /\ socket r = sock;
  inv_caps : forall r, In r (tunnelSockets st) ->
               supportsHTTP2 r =
               bool_decide (handshake_headers (socket r) !! "supports-http2" = Some "true")
}.

(** The request asks for HTTP/2: it is an HTTP/2 request or its content
    type contains [application/grpc]. *)
Definition asks_http2 (req : Request) : Prop :=
  httpVersion req = "2.0"
  \/ exists ct, headers req !! "content-type" = Some ct /\ occurs_in ct "application/grpc".

(** The same with "begins with" in place of "contains". *)
Definition asks_http2_by_prefix (req : Request) : Prop :=
  httpVersion req = "2.0"
  \/ exists ct, headers req !! "content-type" = Some ct /\ starts_with ct "application/grpc".

(** The agent behind a registration advertised [supports-http2: true] in its
    handshake. *)
Definition advertised_http2 (t : TunnelSocketObj) : Prop :=
  handshake_headers (socket t) !! "supports-http2" = Some "true".

(** The value of an appended [x-forwarded-*] header: the prior value, a
    comma and the new value, or the new value alone when the prior value is
    absent or empty. *)
Definition appended (prior : option string) (new : string) : string :=
  match prior with
  | Some (String c s) => String c s ++ "," ++ new
  | _ => new
  end.

(** The same with the new value alone only when the header is absent: a
    header that is present and empty counts as a prior value. *)
Definition appended_when_present (prior : option string) (new : string) : string :=
  match prior with
  | Some p => p ++ "," ++ new
  | None => new
  end.

(** The new port value: the port of the URL built from the Host header,
    or the default of the scheme when that URL names none. *)
Definition forwarded_port (req : Request) (port : string) : string :=
  match port with
  | String _ _ => port
  | EmptyString => if encrypted req then "443" else "80"
  end.

(** The new proto value. *)
Definition forwarded_proto (req : Request) : string :=
  if encrypted req then "https" else "http".

(** The URL [getReqHeaders] parses for the port. *)
Definition origin_url (req : Request) : string :=
  forwarded_proto req ++ "://" ++ or_empty (headers req !! "host").

(** The issuer credentials are configured: both are set and non-empty. *)
Definition credentials_configured (env : Env) : Prop :=
  truthy (JWT_GENERATOR_USERNAME env) = true /\ truthy (JWT_GENERATOR_PASSWORD env) = true.

(** The body, batch, end and error frames of the request side, in either
    family. *)
Definition is_request_body_frame (f : Frame) : bool :=
  match msg f with
  | m_request_pipe _ _ | m_request_pipes _ _
  | m_request_pipe_end _ | m_request_pipe_error _ _ => true
  | _ => false
  end.

(** The frames that carry the id of request [r]. *)
Definition frames_of (r : EdgeRequest) (fs : list Frame) : list Frame :=
  List.filter (fun f => bool_decide (frame_id f = _responseId r)) fs.

(** Every entry of [activeRequests] points to the stream that was opened
    for its id. *)
Definition agent_inv (a : AgentState) : Prop :=
  forall id handle, activeRequests a !! id = Some handle ->
    exists s, streams a !! handle = Some s /\ os_requestId s = id.

(** No socket listener of the request is attached. *)
Definition listeners_off : SocketListeners :=
  mkSocketListeners false false false false false false false.

(** The frames that answer request [id]: the response, body, end and
    request-error frames of the HTTP/2 family that carry [id]. *)
Definition answers (id : string) (f : Frame) : bool :=
  match family f with
  | http1 => false
  | http2 =>
      match msg f with
      | m_response i _ _ _ | m_response_pipe i _ | m_response_pipes i _
      | m_response_pipe_end i _ | m_request_error i _ => bool_decide (i = id)
      | _ => false
      end
  end.

(** A request that has not been answered: nothing was written to its
    client and its error listeners are attached. *)
Definition unanswered (id : string) (r : EdgeRequest) : Prop :=
  _responseId r = id /\ res r = res_init
  /\ on_http2_request_error (listeners r) = true /\ once_requestError r = true.

(** What holds of a control channel after any sequence of stream calls and
    drains. *)
Record channel_inv (ch : Channel) : Prop := mk_channel_inv {
  ci_fresh : forall e k f,
    ch_log ch !! e = Some (l_emit k f) -> (k < ch_next ch)%nat;
  ci_unique : forall e e' k f f',
    ch_log ch !! e = Some (l_emit k f) -> ch_log ch !! e' = Some (l_emit k f') -> e = e';
  ci_waiting : forall m k,
    In (m, k) (drain_once ch) ->
    exists e f, ch_log ch !! e = Some (l_emit k f)
                /\ (m <> meth_destroy -> is_body_frame f = true);
  ci_called : forall p m k,
    ch_log ch !! p = Some (l_callback m k) -> m <> meth_destroy ->
    exists e d f,
      (e < d < p)%nat
      /\ ch_log ch !! e = Some (l_emit k f) /\ is_body_frame f = true
      /\ ch_log ch !! d = Some l_drain
}.

(** The frame a call of a stream method puts on the channel, if any. *)
Definition op_frames (op : ChannelOp) : list Frame :=
  match op with
  | op_write c id chunk =>
      match c with
      | cls_TunnelRequest => [mkFrame http1 (m_request_pipe id chunk)]
      | cls_TunnelResponse => [mkFrame http1 (m_response_pipe id chunk)]
      | cls_HTTP2TunnelRequest => [mkFrame http2 (m_request_pipe id chunk)]
      | cls_HTTP2TunnelResponse => [mkFrame http2 (m_response_pipe id chunk)]
      end
  | op_writev c id chunks =>
      match c with
      | cls_TunnelRequest => [mkFrame http1 (m_request_pipes id chunks)]
      | cls_TunnelResponse => [mkFrame http1 (m_response_pipes id chunks)]
      | cls_HTTP2TunnelRequest => [mkFrame http2 (m_request_pipes id chunks)]
      | cls_HTTP2TunnelResponse => [mkFrame http2 (m_response_pipes id chunks)]
      end
  | op_final c id =>
      match c with
      | cls_TunnelRequest => [mkFrame http1 (m_request_pipe_end id)]
      | cls_TunnelResponse => [mkFrame http1 (m_response_pipe_end id None)]
      | cls_HTTP2TunnelRequest => [mkFrame http2 (m_request_pipe_end id)]
      | cls_HTTP2TunnelResponse => [mkFrame http2 (m_response_pipe_end id None)]
      end
  | op_destroy_http2 true id (Some message) =>
      [mkFrame http2 (m_request_pipe_error id message)]
  | op_destroy_http2 false id (Some message) =>
      [mkFrame http2 (m_response_pipe_error id message)]
  | op_destroy_http2 _ _ None => []
  | op_drain => []
  end.

(** The bookkeeping of completion callbacks on a control channel: the
    waiting callbacks are distinct, were handed out, and have not been called;
    a callback is called at most once; every emission has its callback either
    waiting or called. *)
Record callbacks_inv (ch : Channel) : Prop := mk_callbacks_inv {
  cb_waiting_nodup : List.NoDup (map snd (drain_once ch));
  cb_waiting_fresh : forall m k, In (m, k) (drain_once ch) -> (k < ch_next ch)%nat;
  cb_called_fresh : forall p m k,
    ch_log ch !! p = Some (l_callback m k) -> (k < ch_next ch)%nat;
  cb_waiting_not_called : forall m k p m',
    In (m, k) (drain_once ch) -> ch_log ch !! p <> Some (l_callback m' k);
  cb_called_once : forall p p' m m' k,
    ch_log ch !! p = Some (l_callback m k) -> ch_log ch !! p' = Some (l_callback m' k) ->
    p = p';
  cb_settled : forall e k f,
    ch_log ch !! e = Some (l_emit k f) ->
    (exists m, In (m, k) (drain_once ch))
    \/ (exists p m, ch_log ch !! p = Some (l_callback m k))
}.

(** The body frames of the response of request [id] on the HTTP/2 family,
    and the chunks they carry. *)
Definition is_response_body (id : string) (f : Frame) : bool :=
  match family f with
  | http1 => false
  | http2 =>
      match msg f with
      | m_response_pipe i _ | m_response_pipes i _ => bool_decide (i = id)
      | _ => false
      end
  end.

Definition body_chunks (f : Frame) : list string :=
  match msg f with
  | m_response_pipe _ data | m_request_pipe _ data => [data]
  | m_response_pipes _ data | m_request_pipes _ data => data
  | _ => []
  end.

Definition is_trailers_frame (f : Frame) : bool :=
  match msg f with
  | m_response_trailers _ _ => true
  | _ => false
  end.

(** A request without what only trailers touch: the stored trailers and
    the ['trailers'] events. *)
Definition forget_trailers (r : EdgeRequest) : EdgeRequest :=
  mkEdgeRequest (_responseId r) None (listeners r) (destroyed r) (ended r)
    (once_requestError r) (once_response r) [] (res r) (sent r).

(** The state of a request whose response head is out and whose body so
    far is [sofar]. *)
Definition streaming (id : string) (c : Z) (m : string) (hs : gmap string string)
    (sofar : list string) : EdgeRequest :=
  mkEdgeRequest id None (mkSocketListeners false true true true true true false)
    false false true false []
    (mkServerResponse c (Some (mkHead c (Some m) (delete ":status" hs))) sofar false) [].

(** An origin stream that can still be written: not half-closed, not
    destroyed. *)
Definition os_live (s : OriginStream) : Prop :=
  os_ended s = false /\ os_destroyed s = None.

(** The stream [s] after [chunks] more were written to it. *)
Definition os_append (chunks : list string) (s : OriginStream) : OriginStream :=
  mkOriginStream (os_headers s) (os_written s ++ chunks) (os_ended s) (os_destroyed s)
    (os_closed s) (os_requestId s) (os_family s) (os_isGrpc s).

(** The stream an origin event is about, if it is about one. *)
Definition event_handle (e : OriginEvent) : option nat :=
  match e with
  | stream_response h _ | stream_data h _ | stream_end h | stream_error h _
  | stream_trailers h _ | stream_wantTrailers h => Some h
  | _ => None
  end.

(** The request a call of a stream method belongs to. *)
Definition op_id (op : ChannelOp) : option string :=
  match op with
  | op_write _ id _ | op_writev _ id _ | op_final _ id | op_destroy_http2 _ id _ => Some id
  | op_drain => None
  end.

(** The header lines of a response descriptor: one per value, the values of
    a repeated header in their order. *)
Definition header_lines (hs : list (string * HeaderValue)) : list string :=
  flat_map
    (fun kv =>
       match snd kv with
       | hv_string value => [header_line (fst kv) value]
       | hv_array values => map (header_line (fst kv)) values
       end)
    hs.

(** Lines of text, each one closed by [\r\n]. *)
Fixpoint lines_text (ls : list string) : string :=
  match ls with
  | [] => ""
  | l :: rest => l ++ CRLF ++ lines_text rest
  end.

(* ===================================================================== *)
(** * Properties                                                         *)
(* ===================================================================== *)

(** ** Strings *)

Lemma prefix_starts_with (p u : string) :
  String.prefix p u = true <-> starts_with u p.
Proof.
  unfold starts_with. revert u.
  induction p as [|a p IH]; intros u.
  - split; [intros _; exists u; reflexivity | intros _; now destruct u].
  - destruct u as [|b u]; simpl.
    + split; [discriminate | intros [rest H]; discriminate].
    + destruct (Ascii.ascii_dec a b) as [->|Hne].
      * rewrite IH. split; intros [rest H]; exists rest.
        -- simpl. now rewrite H.
        -- simpl in H. now injection H.
      * split; [discriminate|].
        intros [rest H]. simpl in H. injection H as H1 _. congruence.
Qed.

Lemma indexOf_zero_prefix (u p : string) :
  (indexOf u p =? 0) = true <-> String.prefix p u = true.
Proof.
  unfold indexOf.
  destruct u as [|b u].
  - destruct p; simpl; split; intros H; try reflexivity; discriminate.
  - cbn [String.index].
    destruct (String.prefix p (String b u)) eqn:Hp.
    + split; reflexivity.
    + destruct (String.index 0 p u); split; intros H; discriminate.
Qed.

Lemma indexOf_zero_starts_with (u p : string) :
  (indexOf u p =? 0) = true <-> starts_with u p.
Proof. rewrite indexOf_zero_prefix. apply prefix_starts_with. Qed.

Lemma truthy_false_length (v : option string) :
  truthy v = false -> jslength (or_empty v) = 0.
Proof. destruct v as [[|c s]|]; simpl; intros H; try discriminate; reflexivity. Qed.

Lemma truthy_true_length (v : option string) :
  truthy v = true -> 0 < jslength (or_empty v).
Proof.
  destruct v as [[|c s]|]; simpl; intros H; try discriminate.
  unfold jslength. simpl. lia.
Qed.

(** ** [Array.prototype.sort] *)

Section JsSort.

Context {A : Type} (cmp : A -> A -> Z).

Hypothesis cmp_asym : forall a b, cmp a b < 0 -> ~ cmp b a < 0.
Hypothesis cmp_trans : forall a b c, cmp a b < 0 -> cmp b c < 0 -> cmp a c < 0.

Lemma sort_insert_perm (x : A) (l : list A) :
  Permutation (sort_insert cmp x l) (x :: l).
Proof.
  induction l as [|y l IH]; simpl; [reflexivity|].
  destruct (cmp x y <? 0); [reflexivity|].
  rewrite IH. apply perm_swap.
Qed.

Lemma js_sort_perm_acc (l acc : list A) :
  Permutation (fold_left (fun acc x => sort_insert cmp x acc) l acc) (acc ++ l).
Proof.
  revert acc. induction l as [|x l IH]; intros acc; simpl.
  - now rewrite app_nil_r.
  - rewrite IH, sort_insert_perm. simpl. apply Permutation_middle.
Qed.

Lemma js_sort_perm (l : list A) : Permutation (js_sort cmp l) l.
Proof. unfold js_sort. now rewrite js_sort_perm_acc. Qed.

Lemma sort_insert_sorted (x : A) (l : list A) :
  StronglySorted (not_after cmp) l -> StronglySorted (not_after cmp) (sort_insert cmp x l).
Proof.
  induction 1 as [|y l Hl IH Hy]; simpl.
  - constructor; constructor.
  - destruct (Z.ltb_spec (cmp x y) 0) as [Hlt|Hge].
    + constructor; [now constructor|].
      constructor; [now apply cmp_asym|].
      rewrite List.Forall_forall in Hy |- *. intros z Hz Hzx.
      apply (Hy z Hz). eapply cmp_trans; eassumption.
    + constructor; [assumption|].
      rewrite List.Forall_forall in Hy |- *. intros z Hz.
      apply (Permutation_in _ (sort_insert_perm x l)) in Hz.
      destruct Hz as [<-|Hz]; [unfold not_after; lia | now apply Hy].
Qed.

Lemma js_sort_sorted (l : list A) : StronglySorted (not_after cmp) (js_sort cmp l).
Proof.
  unfold js_sort.
  assert (H : StronglySorted (not_after cmp) []) by constructor.
  revert H. generalize (@nil A).
  induction l as [|x l IH]; intros acc H; simpl; [assumption|].
  apply IH, sort_insert_sorted, H.
Qed.

(** The first element of the sorted array has no element of the array
    strictly in front of it. *)
Lemma js_sort_head (l : list A) (t : A) (rest : list A) :
  js_sort cmp l = t :: rest ->
  In t l /\ forall x, In x l -> not_after cmp t x.
Proof.
  intros E. pose proof (js_sort_sorted l) as S. pose proof (js_sort_perm l) as P.
  rewrite E in S, P. split.
  - apply (Permutation_in _ P). now left.
  - intros x Hx. apply (Permutation_in _ (Permutation_sym P)) in Hx.
    inversion S as [|? ? _ Hall]; subst.
    destruct Hx as [<-|Hx].
    + intros Hlt. exact (cmp_asym _ _ Hlt Hlt).
    + rewrite List.Forall_forall in Hall. now apply Hall.
Qed.

Lemma js_sort_nil (l : list A) : js_sort cmp l = [] -> l = [].
Proof.
  intros E. pose proof (js_sort_perm l) as P. rewrite E in P.
  now apply Permutation_nil.
Qed.

End JsSort.

(** ** C1: routing by longest prefix *)

Lemma tunnel_matches_spec (h : option string) (u : string) (r : TunnelSocketObj) :
  tunnel_matches h u r = true <->
  host r = h /\
  (truthy (pathPrefix r) = false \/ starts_with u (or_empty (pathPrefix r))).
Proof.
  unfold tunnel_matches.
  case_bool_decide as Hh; simpl.
  - destruct (truthy (pathPrefix r)) eqn:Ht; simpl.
    + rewrite indexOf_zero_starts_with. split.
      * intros H. split; [assumption | now right].
      * intros [_ [H|H]]; [discriminate | assumption].
    + split; [intros _; split; [assumption | now left] | reflexivity].
  - split; [discriminate | intros [H _]; contradiction].
Qed.

Lemma tunnel_compare_lt (a b : TunnelSocketObj) :
  tunnel_compare a b < 0 <->
  truthy (pathPrefix a) = true /\
  (truthy (pathPrefix b) = false \/ prefix_length b < prefix_length a).
Proof.
  unfold tunnel_compare, prefix_length.
  destruct (truthy (pathPrefix a)) eqn:Ha; simpl.
  - destruct (truthy (pathPrefix b)) eqn:Hb; simpl.
    + split; [intros H; split; [reflexivity | right; lia] |].
      intros [_ [H|H]]; [discriminate | lia].
    + split; [intros _; split; [reflexivity | now left] | lia].
  - split; [lia | intros [H _]; discriminate].
Qed.

Lemma tunnel_compare_asym (a b : TunnelSocketObj) :
  tunnel_compare a b < 0 -> ~ tunnel_compare b a < 0.
Proof.
  rewrite !tunnel_compare_lt. intros [Ha [Hb|Hb]] [Hb' [Ha'|Ha']]; try congruence; lia.
Qed.

Lemma tunnel_compare_trans (a b c : TunnelSocketObj) :
  tunnel_compare a b < 0 -> tunnel_compare b c < 0 -> tunnel_compare a c < 0.
Proof.
  rewrite !tunnel_compare_lt.
  intros [Ha [Hb|Hb]] [Hb' [Hc|Hc]]; try congruence; split; auto; right; lia.
Qed.

Lemma not_after_prefix_length (t x : TunnelSocketObj) :
  not_after tunnel_compare t x -> prefix_length x <= prefix_length t.
Proof.
  unfold not_after. rewrite tunnel_compare_lt. intros H.
  destruct (truthy (pathPrefix x)) eqn:Hx.
  - destruct (truthy (pathPrefix t)) eqn:Ht.
    + destruct (Z.le_gt_cases (prefix_length x) (prefix_length t)); [assumption|].
      exfalso. apply H. split; [reflexivity | right; lia].
    + exfalso. apply H. split; [reflexivity | now left].
  - unfold prefix_length. rewrite (truthy_false_length _ Hx).
    unfold jslength. lia.
Qed.

Lemma eligible_filter (R : list TunnelSocketObj) (h : option string) (u : string)
    (r : TunnelSocketObj) :
  In r (List.filter (tunnel_matches h u) R) <-> eligible R h u r.
Proof.
  unfold eligible. rewrite filter_In, tunnel_matches_spec. tauto.
Qed.

(** C1. For every list [R] of registrations, host [h] and URL [u]:
    [getAvailableTunnelSocket] returns null exactly when no registration of
    [R] has host [h] and a prefix that is empty or starts [u]; otherwise it
    returns a registration of that set whose prefix is longest, and one with a
    non-empty prefix whenever the set holds any. *)
Theorem C1_resolve_longest_prefix (R : list TunnelSocketObj) (h : option string)
    (u : string) :
  match getAvailableTunnelSocket h u R with
  | None => forall r, ~ eligible R h u r
  | Some t =>
      eligible R h u t
      /\ (forall r, eligible R h u r -> prefix_length r <= prefix_length t)
      /\ (forall r, eligible R h u r -> truthy (pathPrefix r) = true ->
                    truthy (pathPrefix t) = true)
  end.
Proof.
  unfold getAvailableTunnelSocket.
  destruct (js_sort tunnel_compare (List.filter (tunnel_matches h u) R))
    as [|t rest] eqn:E.
  - apply js_sort_nil in E. intros r Hr.
    apply eligible_filter in Hr. rewrite E in Hr. contradiction.
  - apply (js_sort_head tunnel_compare tunnel_compare_asym tunnel_compare_trans) in E.
    destruct E as [Hin Hmax].
    assert (Hlen : forall r, eligible R h u r -> prefix_length r <= prefix_length t).
    { intros r Hr. apply not_after_prefix_length, Hmax, eligible_filter, Hr. }
    split; [now apply eligible_filter | split; [exact Hlen|]].
    intros r Hr Ht. specialize (Hlen r Hr).
    apply truthy_true_length in Ht. fold (prefix_length r) in Ht.
    destruct (truthy (pathPrefix t)) eqn:Htt; [reflexivity|].
    apply truthy_false_length in Htt. fold (prefix_length t) in Htt. lia.
Qed.

(** The choice does not depend on how the engine sorts: any [sort] that
    returns a permutation in which no element is strictly in front of an
    earlier one gives a first element with the same properties. *)
Lemma resolve_with_any_sort
    (sort : list TunnelSocketObj -> list TunnelSocketObj)
    (R : list TunnelSocketObj) (h : option string) (u : string) :
  Permutation (sort (List.filter (tunnel_matches h u) R))
    (List.filter (tunnel_matches h u) R) ->
  StronglySorted (not_after tunnel_compare) (sort (List.filter (tunnel_matches h u) R)) ->
  match sort (List.filter (tunnel_matches h u) R) with
  | [] => forall r, ~ eligible R h u r
  | t :: _ =>
      eligible R h u t
      /\ forall r, eligible R h u r -> prefix_length r <= prefix_length t
  end.
Proof.
  intros P S. destruct (sort _) as [|t rest].
  - apply Permutation_nil in P. intros r Hr. apply eligible_filter in Hr.
    rewrite P in Hr. contradiction.
  - split.
    + apply eligible_filter, (Permutation_in _ P). now left.
    + intros r Hr. apply eligible_filter in Hr.
      apply (Permutation_in _ (Permutation_sym P)) in Hr.
      inversion S as [|? ? _ Hall]; subst.
      destruct Hr as [<-|Hr]; [lia|].
      rewrite List.Forall_forall in Hall. now apply not_after_prefix_length, Hall.
Qed.

(** The routing scenario of the documentation: with [(h, "")] and
    [(h, "/api_v1")] registered, [/api_v1/x] goes to the second and [/other]
    to the first. *)
Example resolve_scenario :
  let s := mkSocket 0 ∅ None in
  let R := [mkTunnelSocketObj (Some "h") (Some "") s false;
            mkTunnelSocketObj (Some "h") (Some "/api_v1") s false] in
  (pathPrefix <$> getAvailableTunnelSocket (Some "h") "/api_v1/x" R) = Some (Some "/api_v1")
  /\ (pathPrefix <$> getAvailableTunnelSocket (Some "h") "/other" R) = Some (Some "")
  /\ getAvailableTunnelSocket (Some "g") "/other" R = None.
Proof. repeat split; reflexivity. Qed.

(** ** C5: one live registration per key *)

Lemma same_key_spec (h p : option string) (r : TunnelSocketObj) :
  same_key h p r = true <-> key_of r = (h, p).
Proof.
  unfold same_key, key_of. rewrite andb_true_iff, !bool_decide_eq_true.
  split; [intros [-> ->]; reflexivity | intros H; now inversion H].
Qed.

Lemma getTunnelSocket_None (h p : option string) (ts : list TunnelSocketObj) :
  getTunnelSocket h p ts = None <-> ~ In (h, p) (map key_of ts).
Proof.
  unfold getTunnelSocket. split.
  - intros H Hin. apply in_map_iff in Hin. destruct Hin as [r [Hk Hr]].
    pose proof (find_none _ _ H r Hr) as Hf.
    apply same_key_spec in Hk. congruence.
  - intros H. destruct (find (same_key h p) ts) as [r|] eqn:E; [|reflexivity].
    apply find_some in E. destruct E as [Hr Hk]. apply same_key_spec in Hk.
    exfalso. apply H. apply in_map_iff. now exists r.
Qed.

Lemma getTunnelSocket_Some (h p : option string) (ts : list TunnelSocketObj)
    (r : TunnelSocketObj) :
  In r ts -> key_of r = (h, p) -> exists r', getTunnelSocket h p ts = Some r'.
Proof.
  intros Hr Hk. destruct (getTunnelSocket h p ts) as [r'|] eqn:E; [now exists r'|].
  apply getTunnelSocket_None in E. exfalso. apply E, in_map_iff. now exists r.
Qed.

Lemma removeTunnelSocket_In (h p : option string) (ts : list TunnelSocketObj)
    (r : TunnelSocketObj) :
  In r (removeTunnelSocket h p ts) <-> In r ts /\ key_of r <> (h, p).
Proof.
  unfold removeTunnelSocket. rewrite filter_In, negb_true_iff.
  rewrite <- same_key_spec. destruct (same_key h p r); intuition congruence.
Qed.

Lemma NoDup_map_filter {A B} (f : A -> B) (q : A -> bool) (l : list A) :
  List.NoDup (map f l) -> List.NoDup (map f (List.filter q l)).
Proof.
  induction l as [|x l IH]; simpl; intros H; [constructor|].
  inversion H as [|? ? Hx Hl]; subst.
  destruct (q x); simpl; [constructor|]; auto.
  intros Hin. apply Hx. apply in_map_iff in Hin. destruct Hin as [y [Hy Hin]].
  apply filter_In in Hin. apply in_map_iff. exists y. tauto.
Qed.

Lemma NoDup_map_eq {A B} (f : A -> B) (l : list A) (x y : A) :
  List.NoDup (map f l) -> In x l -> In y l -> f x = f y -> x = y.
Proof.
  induction l as [|z l IH]; simpl; intros H Hx Hy E; [contradiction|].
  inversion H as [|? ? Hz Hl]; subst.
  destruct Hx as [->|Hx], Hy as [->|Hy]; auto.
  - exfalso. apply Hz. rewrite E. now apply in_map.
  - exfalso. apply Hz. rewrite <- E. now apply in_map.
Qed.

Section EdgeInvariant.

Variable jwt_verify : option string -> option string -> option (option string).
Variable env : Env.

Lemma edge_inv_init : edge_inv edge_init.
Proof. constructor; simpl; [constructor | contradiction ..]. Qed.

Lemma on_connection_inv (sock : Socket) (st : EdgeState) :
  edge_inv st ->
  io_use jwt_verify env sock (tunnelSockets st) = next_ok ->
  edge_inv (on_connection sock st).
Proof.
  intros [Hu Ho Hl Hc] Hok.
  assert (Hfresh : ~ In (socket_key sock) (map key_of (tunnelSockets st))).
  { unfold io_use in Hok. apply getTunnelSocket_None.
    destruct (getTunnelSocket _ _ _); [discriminate | reflexivity]. }
  constructor; simpl; unfold setTunnelSocket.
  - rewrite map_app. simpl.
    apply (Permutation_NoDup (l := socket_key sock :: map key_of (tunnelSockets st))).
    + apply Permutation_cons_append.
    + now constructor.
  - intros r Hr. apply in_app_or in Hr. destruct Hr as [Hr|[<-|[]]].
    + destruct (Ho r Hr). split; [assumption | now right].
    + split; [reflexivity | now left].
  - intros s [<-|Hs].
    + eexists. split; [apply in_or_app; right; left; reflexivity | reflexivity].
    + destruct (Hl s Hs) as [r [Hr E]]. exists r. split; [|assumption].
      apply in_or_app. now left.
  - intros r Hr. apply in_app_or in Hr. destruct Hr as [Hr|[<-|[]]]; [auto | reflexivity].
Qed.

Lemma on_disconnect_inv (sock : Socket) (st : EdgeState) :
  edge_inv st -> edge_inv (on_disconnect sock st).
Proof.
  intros [Hu Ho Hl Hc]. unfold on_disconnect.
  case_bool_decide as Hin; [|now constructor].
  constructor; simpl.
  - now apply NoDup_map_filter.
  - intros r Hr. apply removeTunnelSocket_In in Hr. destruct Hr as [Hr Hk].
    destruct (Ho r Hr) as [Hkey Hs]. split; [assumption|].
    apply filter_In. split; [assumption|].
    apply negb_true_iff, bool_decide_eq_false. intros E.
    apply Hk. rewrite Hkey, E. reflexivity.
  - intros s Hs. apply filter_In in Hs. destruct Hs as [Hs Hne].
    apply negb_true_iff, bool_decide_eq_false in Hne.
    destruct (Hl s Hs) as [r [Hr E]]. exists r. split; [|assumption].
    apply removeTunnelSocket_In. split; [assumption|].
    intros Hk. apply Hne.
    apply list_elem_of_In in Hin. destruct (Hl sock Hin) as [r' [Hr' E']].
    assert (r = r').
    { apply (NoDup_map_eq key_of (tunnelSockets st)); auto.
      rewrite Hk. destruct (Ho r' Hr') as [-> _]. now rewrite E'. }
    congruence.
  - intros r Hr. apply removeTunnelSocket_In in Hr. now apply Hc.
Qed.

Lemma edge_step_inv (st : EdgeState) (e : EdgeEvent) :
  edge_inv st -> edge_inv (edge_step jwt_verify env st e).
Proof.
  intros H. destruct e as [sock|sock]; simpl.
  - unfold handshake.
    destruct (io_use jwt_verify env sock (tunnelSockets st)) eqn:E; simpl;
      [now apply on_connection_inv | assumption].
  - now apply on_disconnect_inv.
Qed.

Lemma edge_run_inv (evs : list EdgeEvent) : edge_inv (edge_run jwt_verify env evs).
Proof.
  unfold edge_run. generalize edge_inv_init. generalize edge_init.
  induction evs as [|e evs IH]; intros st H; simpl; [assumption|].
  apply IH, edge_step_inv, H.
Qed.

End EdgeInvariant.

(** C5. In every state the edge reaches by handshakes and disconnections:
    no two registrations share a (host, path prefix) key; a handshake whose
    key is the key of a registration is rejected with
    ["<host> has a existing connection"] and leaves the state, hence that
    registration, as it was; and when the socket of a registration
    disconnects, exactly that registration is removed. *)
Theorem C5_one_registration_per_key
    (jwt_verify : option string -> option string -> option (option string))
    (env : Env) (evs : list EdgeEvent) :
  let st := edge_run jwt_verify env evs in
  List.NoDup (map key_of (tunnelSockets st))
  /\ (forall sock r,
        In r (tunnelSockets st) -> key_of r = socket_key sock ->
        handshake jwt_verify env sock st =
          (next_error (to_str (handshake_headers sock !! "host")
                       ++ " has a existing connection"), st))
  /\ (forall r r',
        In r (tunnelSockets st) ->
        (In r' (tunnelSockets (on_disconnect (socket r) st))
         <-> In r' (tunnelSockets st) /\ r' <> r)).
Proof.
  intros st. destruct (edge_run_inv jwt_verify env evs) as [Hu Ho Hl _].
  fold st in Hu, Ho, Hl. split; [exact Hu | split].
  - intros sock r Hr Hk. unfold handshake, io_use.
    destruct (getTunnelSocket_Some _ _ _ r Hr Hk) as [r' ->]. reflexivity.
  - intros r r' Hr. destruct (Ho r Hr) as [Hk Hs].
    unfold on_disconnect. rewrite bool_decide_eq_true_2 by now apply list_elem_of_In.
    simpl. rewrite removeTunnelSocket_In. fold (socket_key (socket r)). rewrite <- Hk.
    split; intros [Hr' Hne]; (split; [assumption|]).
    + congruence.
    + intros E. apply Hne. now apply (NoDup_map_eq key_of (tunnelSockets st)).
Qed.

(** The duplicate-registration scenario of the documentation, on a
    verifier that accepts the token ["t"]. *)
Example duplicate_registration_scenario :
  let verify := fun (t _ : option string) =>
                  if bool_decide (t = Some "t") then Some (Some "v") else None in
  let env := mkEnv (Some "k") (Some "v") None None in
  let hs : gmap string string := <[ "host" := "h" ]> (<[ "path-prefix" := "/p" ]> ∅) in
  let first := mkSocket 1 hs (Some "t") in
  let second := mkSocket 2 hs (Some "t") in
  let st := edge_run verify env [Handshake first] in
  map socket (tunnelSockets st) = [first]
  /\ handshake verify env second st = (next_error "h has a existing connection", st)
  /\ tunnelSockets (edge_run verify env [Handshake first; Disconnect second]) = tunnelSockets st
  /\ tunnelSockets (edge_run verify env [Handshake first; Disconnect first]) = []
  /\ map socket (tunnelSockets
       (edge_run verify env [Handshake first; Disconnect first; Handshake second])) = [second].
Proof. vm_compute. repeat split; reflexivity. Qed.

(** ** C3: the flavor of a tunneled request *)

Lemma index_Some_occurs (s p : string) :
  (exists n, String.index 0 p s = Some n) <-> occurs_in s p.
Proof.
  unfold occurs_in. induction s as [|b s IH].
  - destruct p as [|a p]; simpl.
    + split; [intros _; exists "", ""; reflexivity | intros _; now exists 0%nat].
    + split; [intros [n H]; discriminate|].
      intros [before [rest H]]. destruct before; discriminate.
  - cbn [String.index]. destruct (String.prefix p (String b s)) eqn:Hp.
    + split; [|intros _; now exists 0%nat]. intros _.
      apply prefix_starts_with in Hp. destruct Hp as [rest Hp].
      exists "", rest. exact Hp.
    + split.
      * intros [n H]. destruct (String.index 0 p s) as [m|]; [|discriminate].
        destruct IH as [IH _]. destruct IH as [before [rest E]]; [now exists m|].
        exists (String b before), rest. simpl. now rewrite E.
      * intros [before [rest E]]. destruct before as [|c before].
        -- exfalso. assert (String.prefix p (String b s) = true); [|congruence].
           apply prefix_starts_with. exists rest. exact E.
        -- simpl in E. injection E as _ E.
           destruct IH as [_ IH]. destruct IH as [m Hm]; [now exists before, rest|].
           rewrite Hm. now eexists.
Qed.

Lemma includes_occurs (s p : string) : includes s p = true <-> occurs_in s p.
Proof.
  rewrite <- index_Some_occurs. unfold includes, indexOf.
  destruct (String.index 0 p s) as [n|]; simpl.
  - split; [intros _; now exists n|]. intros _.
    apply negb_true_iff, Z.eqb_neq. lia.
  - split; [discriminate | intros [n H]; discriminate].
Qed.

Lemma isHttp2_spec (req : Request) : isHttp2 req = true <-> asks_http2 req.
Proof.
  unfold isHttp2, asks_http2. rewrite orb_true_iff, String.eqb_eq, andb_true_iff.
  split; (intros [H|H]; [now left | right]).
  - destruct H as [Ht Hi]. destruct (headers req !! "content-type") as [ct|]; [|discriminate].
    exists ct. split; [reflexivity | now apply includes_occurs].
  - destruct H as [ct [-> Ho]]. simpl. apply includes_occurs in Ho. split; [|assumption].
    destruct ct; [discriminate | reflexivity].
Qed.

(** C3, as the code has it. For every request the dispatcher finds a
    registration for, in any state the edge reaches: the request is handed to
    [handleHTTP2Request] if and only if it is an HTTP/2 request or its
    content type contains [application/grpc], and the chosen agent advertised
    [supports-http2: true]; in every other case it is handed to
    [handleHTTP1Request]. *)
Theorem C3_flavor_http2_iff
    (jwt_verify : option string -> option string -> option (option string))
    (env : Env) (evs : list EdgeEvent) (requestId : string) (req : Request) :
  let ts := tunnelSockets (edge_run jwt_verify env evs) in
  match getAvailableTunnelSocket (headers req !! "host") (url req) ts with
  | None => handleRequest ts requestId req = respond_404_not_found
  | Some t =>
      (flavor_of (handleRequest ts requestId req) = Some flavor_http2
       <-> asks_http2 req /\ advertised_http2 t)
      /\ (asks_http2 req /\ advertised_http2 t ->
          handleRequest ts requestId req = call_handleHTTP2Request (socket t) requestId)
      /\ (~ (asks_http2 req /\ advertised_http2 t) ->
          handleRequest ts requestId req = call_handleHTTP1Request (socket t) requestId)
  end.
Proof.
  intros ts. unfold handleRequest.
  destruct (getAvailableTunnelSocket (headers req !! "host") (url req) ts) as [t|] eqn:E;
    [|reflexivity].
  assert (Hin : In t ts).
  { pose proof (C1_in := eligible_filter ts (headers req !! "host") (url req) t).
    unfold getAvailableTunnelSocket in E.
    destruct (js_sort tunnel_compare _) as [|t' rest] eqn:Es; [discriminate|].
    injection E as ->.
    apply (js_sort_head tunnel_compare tunnel_compare_asym tunnel_compare_trans) in Es.
    apply C1_in. tauto. }
  pose proof (inv_caps _ (edge_run_inv jwt_verify env evs) t Hin) as Hc.
  assert (Hiff : isHttp2 req && supportsHTTP2 t = true <-> asks_http2 req /\ advertised_http2 t).
  { rewrite andb_true_iff, isHttp2_spec, Hc, bool_decide_eq_true. reflexivity. }
  destruct (isHttp2 req && supportsHTTP2 t); simpl.
  - split; [|split]; [tauto | reflexivity |]. intros H. exfalso. apply H, Hiff. reflexivity.
  - split; [|split]; [|intros H; apply Hiff in H; discriminate | reflexivity].
    split; [discriminate | intros H; apply Hiff in H; discriminate].
Qed.

(** The request frame of [handleHTTP2Request] goes out under the HTTP/2
    name, with the id minted for the request and the headers of
    [getReqHeaders]. *)
Lemma http2_request_frame_event (url_port : string -> option string)
    (requestId : string) (req : Request) (f : Frame) :
  http2_request_frame url_port requestId req = Some f ->
  event_name f = "http2-request" /\ frame_id f = requestId
  /\ exists hs, getReqHeaders url_port req = Some hs
                /\ msg f = m_request requestId
                            (mkDescriptor (method req) hs (url req) (Some "2.0")).
Proof.
  unfold http2_request_frame.
  destruct (getReqHeaders url_port req) as [hs|]; [|discriminate].
  intros H. injection H as <-. repeat split. now exists hs.
Qed.

(** C3 fails with "begins with": a request that is not HTTP/2 and whose
    content type contains [application/grpc] without beginning with it is
    handed to [handleHTTP2Request] when the agent advertised HTTP/2. *)
Lemma C3_contains_not_begins :
  let verify := fun (t _ : option string) =>
                  if bool_decide (t = Some "t") then Some (Some "v") else None in
  let env := mkEnv (Some "k") (Some "v") None None in
  let agent : Socket :=
    mkSocket 1 (<[ "host" := "h" ]> (<[ "supports-http2" := "true" ]> ∅)) (Some "t") in
  let ts := tunnelSockets (edge_run verify env [Handshake agent]) in
  let req :=
    mkRequest "1.1" "POST" "/svc"
      (<[ "host" := "h" ]> (<[ "content-type" := "text/plain; profile=application/grpc" ]> ∅))
      false None in
  handleRequest ts "id" req = call_handleHTTP2Request agent "id"
  /\ ~ asks_http2_by_prefix req.
Proof.
  split; [vm_compute; reflexivity|].
  intros [H|[ct [H1 H2]]]; [discriminate|].
  vm_compute in H1. injection H1 as <-.
  apply prefix_starts_with in H2. vm_compute in H2. discriminate.
Qed.

(** ** C8: the forwarded headers *)

Lemma appended_eq (prior : option string) (new : string) :
  or_empty prior ++ (if truthy (Some (or_empty prior)) then "," else "") ++ new
  = appended prior new.
Proof. destruct prior as [[|c s]|]; reflexivity. Qed.

(** C8, as the code has it. When the URL built from the Host header parses
    with port [port], the header set of the tunnel request descriptor is the
    incoming one except that [x-forwarded-for], [x-forwarded-port] and
    [x-forwarded-proto] hold the prior value, a comma and the new value (the
    new value alone when the prior value is absent or empty), the new port
    being the one of the Host header or else 443 under TLS and 80 otherwise,
    the new proto https or http accordingly; and [x-forwarded-host] keeps a
    non-empty prior value and otherwise holds the incoming Host. *)
Theorem C8_forwarded_headers (url_port : string -> option string) (req : Request)
    (port : string) :
  url_port (origin_url req) = Some port ->
  exists hs,
    getReqHeaders url_port req = Some hs
    /\ hs !! "x-forwarded-for" =
         Some (appended (headers req !! "x-forwarded-for") (to_str (remoteAddress req)))
    /\ hs !! "x-forwarded-port" =
         Some (appended (headers req !! "x-forwarded-port") (forwarded_port req port))
    /\ hs !! "x-forwarded-proto" =
         Some (appended (headers req !! "x-forwarded-proto") (forwarded_proto req))
    /\ hs !! "x-forwarded-host" =
         Some (if truthy (headers req !! "x-forwarded-host")
               then or_empty (headers req !! "x-forwarded-host")
               else or_empty (headers req !! "host"))
    /\ forall k,
         k <> "x-forwarded-for" -> k <> "x-forwarded-port" ->
         k <> "x-forwarded-proto" -> k <> "x-forwarded-host" ->
         hs !! k = headers req !! k.
Proof.
  intros Hp. unfold getReqHeaders. fold (forwarded_proto req). fold (origin_url req).
  rewrite Hp. eexists. split; [reflexivity|].
  cbn [fold_left]. unfold forwardValues. simpl String.eqb. cbv iota.
  change ("x-forwarded-" ++ "for") with "x-forwarded-for".
  change ("x-forwarded-" ++ "port") with "x-forwarded-port".
  change ("x-forwarded-" ++ "proto") with "x-forwarded-proto".
  rewrite !appended_eq.
  assert (Hport : (if truthy (Some port) then port
                   else if encrypted req then "443" else "80") = forwarded_port req port).
  { destruct port; reflexivity. }
  rewrite Hport. fold (forwarded_proto req).
  repeat split.
  - rewrite !lookup_insert_ne by discriminate. apply lookup_insert_eq.
  - rewrite !lookup_insert_ne by discriminate. apply lookup_insert_eq.
  - rewrite lookup_insert_ne by discriminate. apply lookup_insert_eq.
  - apply lookup_insert_eq.
  - intros k H1 H2 H3 H4. rewrite !lookup_insert_ne by congruence. reflexivity.
Qed.

(** A concrete request: Host [example.test:8443] under TLS, a prior
    [x-forwarded-for], no other forwarded header. *)
Lemma C8_forwarded_headers_witness :
  let req :=
    mkRequest "1.1" "GET" "/"
      (<[ "host" := "example.test:8443" ]> (<[ "x-forwarded-for" := "10.0.0.1" ]> ∅))
      true (Some "10.0.0.2") in
  let url_port := fun _ : string => Some "8443" in
  exists hs,
    getReqHeaders url_port req = Some hs
    /\ hs !! "x-forwarded-for" = Some "10.0.0.1,10.0.0.2"
    /\ hs !! "x-forwarded-port" = Some "8443"
    /\ hs !! "x-forwarded-proto" = Some "https"
    /\ hs !! "x-forwarded-host" = Some "example.test:8443"
    /\ forall k,
         k <> "x-forwarded-for" -> k <> "x-forwarded-port" ->
         k <> "x-forwarded-proto" -> k <> "x-forwarded-host" ->
         hs !! k = headers req !! k.
Proof.
  intros req url_port.
  exact (C8_forwarded_headers url_port req "8443" eq_refl).
Defined.

(** C8 fails on headers that are present and empty: an empty
    [x-forwarded-host] is replaced by the Host, and an empty
    [x-forwarded-for] is replaced by the new value without a comma. *)
Lemma C8_empty_prior_values :
  let hs0 : gmap string string :=
    <[ "host" := "example.test" ]>
      (<[ "x-forwarded-host" := "" ]> (<[ "x-forwarded-for" := "" ]> ∅)) in
  let req := mkRequest "1.1" "GET" "/" hs0 false (Some "10.0.0.2") in
  let sent := default ∅ (getReqHeaders (fun _ => Some "") req) in
  headers req !! "x-forwarded-host" = Some ""
  /\ sent !! "x-forwarded-host" = Some "example.test"
  /\ sent !! "x-forwarded-for" = Some "10.0.0.2"
  /\ sent !! "x-forwarded-for" <>
       Some (appended_when_present (headers req !! "x-forwarded-for") "10.0.0.2").
Proof. vm_compute. repeat split; try reflexivity. discriminate. Qed.

(** ** C9: the token generator *)

(** The handler itself answers as documented on the query parameters it is
    given: 404 without configured credentials, 200 and the signed token when
    they match, 401 and [Forbidden] otherwise. *)
Lemma tunnel_jwt_generator_spec (jwt_sign : option string -> option string -> string)
    (env : Env) (query : gmap string string) :
  (~ credentials_configured env ->
     tunnel_jwt_generator jwt_sign env query = (404, "Not found"))
  /\ (credentials_configured env ->
      query !! "username" = JWT_GENERATOR_USERNAME env ->
      query !! "password" = JWT_GENERATOR_PASSWORD env ->
      tunnel_jwt_generator jwt_sign env query
        = (200, jwt_sign (VERIFY_TOKEN env) (SECRET_KEY env)))
  /\ (credentials_configured env ->
      ~ (query !! "username" = JWT_GENERATOR_USERNAME env
         /\ query !! "password" = JWT_GENERATOR_PASSWORD env) ->
      tunnel_jwt_generator jwt_sign env query = (401, "Forbidden")).
Proof.
  unfold credentials_configured, tunnel_jwt_generator.
  destruct (truthy (JWT_GENERATOR_USERNAME env)), (truthy (JWT_GENERATOR_PASSWORD env));
    simpl; repeat split; try tauto; try (intros [? ?]; discriminate).
  - intros _ -> ->. rewrite !bool_decide_eq_true_2 by reflexivity. reflexivity.
  - intros _ H. destruct (bool_decide _) eqn:E1; [|reflexivity].
    destruct (bool_decide (query !! "password" = _)) eqn:E2; [|reflexivity].
    apply bool_decide_eq_true in E1, E2. tauto.
Qed.

(** A URL with a query string is never the URL the ['request'] listener
    hands to Express: it goes to the tunnel handler. *)
Lemma on_request_with_query (jwt_sign : option string -> option string -> string)
    (env : Env) (ts : list TunnelSocketObj) (requestId : string) (req : Request)
    (q : string) :
  url req = "/tunnel_jwt_generator?" ++ q ->
  on_request jwt_sign env ts requestId req = by_tunnel (handleRequest ts requestId req).
Proof. intros E. unfold on_request. rewrite E. reflexivity. Qed.

(** C9 on the code. With the credentials [admin]/[secret] configured, the
    documented request [GET /tunnel_jwt_generator?username=admin&password=secret]
    is not answered by the generator: the listener compares the whole URL,
    query string included, with ["/tunnel_jwt_generator"], so the request is
    dispatched as a tunneled request and, with no agent registered, answered
    [404 Not Found]; the handler, given these parameters, would have
    answered 200 with the token. The one URL that reaches the handler carries
    no parameters and is answered 401. *)
Theorem C9_query_never_reaches_generator
    (jwt_sign : option string -> option string -> string) (requestId : string) :
  let env := mkEnv (Some "k") (Some "v") (Some "admin") (Some "secret") in
  let get := fun u => mkRequest "1.1" "GET" u (<[ "host" := "edge.test" ]> ∅) false None in
  let query : gmap string string :=
    <[ "username" := "admin" ]> (<[ "password" := "secret" ]> ∅) in
  on_request jwt_sign env [] requestId
    (get "/tunnel_jwt_generator?username=admin&password=secret")
    = by_tunnel respond_404_not_found
  /\ tunnel_jwt_generator jwt_sign env query = (200, jwt_sign (Some "v") (Some "k"))
  /\ on_request jwt_sign env [] requestId (get "/tunnel_jwt_generator")
     = by_express 401 "Forbidden".
Proof. intros env get query. repeat split. Qed.

(** ** C7: a request while the origin is not connected *)

Section AgentProperties.

Variable version : AgentVersion.
Variable connect_throws : bool.
Variable request_throws : gmap string string -> option string.
Variable write_ok : OriginStream -> string -> bool.
Variable parseInt : string -> Z.
Variable HTTP_STATUS_CODES : Z -> option string.

Lemma createLocalClient_keeps (a : AgentState) :
  let a' := createLocalClient version connect_throws a in
  streams a' = streams a /\ activeRequests a' = activeRequests a
  /\ emitted a' = emitted a.
Proof.
  unfold createLocalClient. destruct version, connect_throws; simpl; auto.
Qed.

Lemma on_request_frame_not_connected (fam : Family) (requestId : string)
    (request : Descriptor) (a : AgentState) :
  not_connected a = true ->
  let a' := on_request_frame version connect_throws request_throws fam requestId request a in
  emitted a' =
    (emitted a ++
     [mkFrame fam (m_request_error requestId "Local HTTP/2 client not connected")])%list
  /\ streams a' = streams a
  /\ activeRequests a' = activeRequests a.
Proof.
  intros H. unfold on_request_frame. rewrite H.
  generalize (createLocalClient_keeps a).
  destruct version; simpl; [intros [-> [-> ->]] | intros _]; auto.
Qed.

(** ** C10: frames for an id without an entry *)

Lemma activeRequests_get_None (requestId : string) (a : AgentState) :
  activeRequests a !! requestId = None -> activeRequests_get requestId a = None.
Proof. unfold activeRequests_get. now intros ->. Qed.

Lemma agent_on_frame_unknown_id (f : Frame) (a : AgentState) :
  is_request_body_frame f = true ->
  activeRequests a !! frame_id f = None ->
  agent_on_frame version connect_throws request_throws write_ok f a = a.
Proof.
  destruct f as [fam m]. unfold is_request_body_frame, frame_id, agent_on_frame. simpl.
  destruct m; simpl; try discriminate; intros _ H;
    unfold on_request_pipe, on_request_pipes, on_request_pipe_end, on_request_pipe_error;
    now rewrite (activeRequests_get_None _ _ H).
Qed.

Lemma completed_has_no_entry (handle : nat) (s : OriginStream) (message : string)
    (a : AgentState) :
  streams a !! handle = Some s ->
  activeRequests
    (agent_on_origin version connect_throws parseInt HTTP_STATUS_CODES (stream_end handle) a)
    !! os_requestId s = None
  /\ activeRequests
       (agent_on_origin version connect_throws parseInt HTTP_STATUS_CODES
          (stream_error handle message) a)
     !! os_requestId s = None.
Proof.
  intros H. simpl. rewrite H. simpl. split; apply lookup_delete_eq.
Qed.

End AgentProperties.

(** C7, as the code has it. Whenever the agent receives a request frame of
    either family while it has no live origin session, it emits the
    request-error frame of that family for the request id, with the message
    ["Local HTTP/2 client not connected"], and opens no origin stream. *)
Theorem C7_not_connected_request_error (version : AgentVersion)
    (connect_throws : bool) (request_throws : gmap string string -> option string)
    (write_ok : OriginStream -> string -> bool)
    (fam : Family) (requestId : string) (request : Descriptor) (a : AgentState) :
  not_connected a = true ->
  let reply := mkFrame fam (m_request_error requestId "Local HTTP/2 client not connected") in
  let a' := agent_on_frame version connect_throws request_throws write_ok
              (mkFrame fam (m_request requestId request)) a in
  emitted a' = (emitted a ++ [reply])%list
  /\ event_name reply = match fam with
                        | http1 => "request-error"
                        | http2 => "http2-request-error"
                        end
  /\ streams a' = streams a
  /\ activeRequests a' = activeRequests a.
Proof.
  intros H reply a'.
  destruct (on_request_frame_not_connected version connect_throws request_throws
              fam requestId request a H) as [He [Hs Hm]].
  repeat split; assumption.
Qed.

Lemma C7_not_connected_request_error_witness :
  let request := mkDescriptor "GET" ∅ "/hello" (Some "2.0") in
  let a' := agent_on_frame http2client_example false (fun _ => None) (fun _ _ => true)
              (mkFrame http2 (m_request "id-1" request)) agent_init in
  emitted a' =
    [mkFrame http2 (m_request_error "id-1" "Local HTTP/2 client not connected")]
  /\ "http2-request-error" = "http2-request-error"
  /\ streams a' = []
  /\ activeRequests a' = ∅.
Proof.
  intros request a'.
  exact (C7_not_connected_request_error http2client_example false (fun _ => None)
           (fun _ _ => true) http2 "id-1" request agent_init eq_refl).
Defined.

(** C7 fails on the message: the frame the agent emits does not carry
    ["Local client not connected"]. *)
Lemma C7_message_differs :
  let request := mkDescriptor "GET" ∅ "/hello" (Some "2.0") in
  let a' := agent_on_frame http2client_example false (fun _ => None) (fun _ _ => true)
              (mkFrame http2 (m_request "id-1" request)) agent_init in
  not_connected agent_init = true
  /\ emitted a' <> [mkFrame http2 (m_request_error "id-1" "Local client not connected")]
  /\ emitted (agent_on_frame part_003 false (fun _ => None) (fun _ _ => true)
                (mkFrame http1 (m_request "id-1" request)) agent_init)
     <> [mkFrame http1 (m_request_error "id-1" "Local client not connected")].
Proof. repeat split; vm_compute; discriminate. Qed.

(** C10. For every body, batch, end or error frame of the request side
    whose id has no entry in [activeRequests], the handler of the agent
    leaves the whole state as it is: the origin streams, the map and the
    frames emitted. An id has no entry once its stream ended or failed. *)
Theorem C10_unknown_id_no_op (version : AgentVersion) (connect_throws : bool)
    (request_throws : gmap string string -> option string)
    (write_ok : OriginStream -> string -> bool)
    (parseInt : string -> Z) (HTTP_STATUS_CODES : Z -> option string)
    (f : Frame) (a : AgentState) :
  is_request_body_frame f = true ->
  activeRequests a !! frame_id f = None ->
  agent_on_frame version connect_throws request_throws write_ok f a = a
  /\ forall handle s message,
       streams a !! handle = Some s ->
       let ended := agent_on_origin version connect_throws parseInt HTTP_STATUS_CODES
                      (stream_end handle) a in
       let failed := agent_on_origin version connect_throws parseInt HTTP_STATUS_CODES
                       (stream_error handle message) a in
       activeRequests ended !! os_requestId s = None
       /\ activeRequests failed !! os_requestId s = None.
Proof.
  intros Hf Hn. split.
  - now apply agent_on_frame_unknown_id.
  - intros handle s message Hs. now apply completed_has_no_entry.
Qed.

Lemma C10_unknown_id_no_op_witness :
  let f := mkFrame http2 (m_request_pipes "gone" ["a"; "b"]) in
  let step := agent_on_frame http2client_example false (fun _ => None) (fun _ _ => true) in
  let on_origin := agent_on_origin http2client_example false (fun _ => 200) (fun _ => None) in
  let a := step (mkFrame http2 (m_request "live" (mkDescriptor "POST" ∅ "/up" None)))
             (mkAgentState (Some false) ∅ [] [] 0%nat) in
  step f a = a
  /\ forall handle s message,
       streams a !! handle = Some s ->
       activeRequests (on_origin (stream_end handle) a) !! os_requestId s = None
       /\ activeRequests (on_origin (stream_error handle message) a) !! os_requestId s = None.
Proof.
  intros f step on_origin a.
  exact (C10_unknown_id_no_op http2client_example false (fun _ => None) (fun _ _ => true)
           (fun _ => 200) (fun _ => None) f a eq_refl eq_refl).
Defined.

(** ** C2: isolation of requests *)

(** *** At the edge *)

Lemma deliver_other_id (r : EdgeRequest) (f : Frame) :
  frame_id f <> _responseId r -> deliver r f = r.
Proof.
  destruct f as [fam m]. unfold frame_id, deliver. simpl. intros Hne.
  destruct fam; [reflexivity|].
  destruct m; simpl in Hne; try reflexivity;
    match goal with |- (if ?b then _ else _) = _ => destruct b; [|reflexivity] end;
    unfold onResponse, onResponsePipe, onResponsePipes, onResponsePipeError,
      onResponsePipeEnd, onResponseTrailers, onRequestError;
    rewrite bool_decide_eq_false_2 by congruence; reflexivity.
Qed.

Lemma push_responseId (data : string) (r : EdgeRequest) :
  _responseId (push data r) = _responseId r.
Proof. unfold push. now destruct (destroyed r || ended r). Qed.

Lemma push_all_responseId (data : list string) (r : EdgeRequest) :
  _responseId (fold_left (fun r chunk => push chunk r) data r) = _responseId r.
Proof.
  revert r. induction data as [|d data IH]; intros r; simpl; [reflexivity|].
  now rewrite IH, push_responseId.
Qed.

Lemma destroy_responseId (e : option string) (r : EdgeRequest) :
  _responseId (destroy e r) = _responseId r.
Proof. unfold destroy. now destruct (destroyed r). Qed.

Lemma deliver_responseId (r : EdgeRequest) (f : Frame) :
  _responseId (deliver r f) = _responseId r.
Proof.
  destruct f as [fam m]. unfold deliver. simpl.
  destruct fam; [reflexivity|].
  destruct m; try reflexivity;
    match goal with |- _responseId (if ?b then _ else _) = _ => destruct b; [|reflexivity] end.
  - unfold onResponse, emit_response. case_bool_decide; [|reflexivity].
    simpl. now destruct (once_response r).
  - unfold onResponsePipe. case_bool_decide; [apply push_responseId | reflexivity].
  - unfold onResponsePipes. case_bool_decide; [apply push_all_responseId | reflexivity].
  - unfold onResponsePipeEnd. case_bool_decide; simpl; [|reflexivity].
    unfold push_null. simpl.
    destruct data as [d|];
      repeat match goal with
             | |- context [match ?x with _ => _ end] => destruct x eqn:?; simpl
             end;
      rewrite ?push_responseId; reflexivity.
  - unfold onResponsePipeError. case_bool_decide; simpl; [|reflexivity].
    now rewrite destroy_responseId.
  - unfold onResponseTrailers. now case_bool_decide.
  - unfold onRequestError, emit_requestError. case_bool_decide; [|reflexivity].
    simpl. destruct (once_requestError r); [|reflexivity].
    unfold handleHTTP2Request_onRequestError. simpl. now rewrite destroy_responseId.
Qed.

Lemma deliver_all_frames_of (fs : list Frame) (r : EdgeRequest) :
  deliver_all fs r = deliver_all (frames_of r fs) r.
Proof.
  unfold deliver_all, frames_of. revert r.
  induction fs as [|f fs IH]; intros r; simpl; [reflexivity|].
  case_bool_decide as Hid; simpl.
  - rewrite IH. now rewrite deliver_responseId.
  - now rewrite deliver_other_id.
Qed.

Lemma socket_receive_all_map (fs : list Frame) (rs : list EdgeRequest) :
  socket_receive_all fs rs = map (deliver_all fs) rs.
Proof.
  unfold socket_receive_all, deliver_all. revert rs.
  induction fs as [|f fs IH]; intros rs; simpl.
  - now rewrite map_id.
  - rewrite IH. unfold socket_receive. now rewrite map_map.
Qed.

(** *** At the agent *)

Lemma os_write_requestId (chunk : string) (s : OriginStream) :
  os_requestId (os_write chunk s) = os_requestId s.
Proof. unfold os_write. now destruct (_ || _). Qed.

Lemma os_destroy_requestId (e : string) (s : OriginStream) :
  os_requestId (os_destroy e s) = os_requestId s.
Proof. unfold os_destroy. now destruct (os_destroyed s). Qed.

Lemma write_all_requestId (chunks : list string) (s : OriginStream) :
  os_requestId (write_all chunks s) = os_requestId s.
Proof.
  unfold write_all. revert s.
  induction chunks as [|c chunks IH]; intros s; simpl; [reflexivity|].
  now rewrite IH, os_write_requestId.
Qed.

Lemma write_until_full_requestId (write_ok : OriginStream -> string -> bool)
    (chunks : list string) (s : OriginStream) :
  os_requestId (write_until_full write_ok chunks s) = os_requestId s.
Proof.
  revert s. induction chunks as [|c chunks IH]; intros s; simpl; [reflexivity|].
  destruct (write_ok s c); [rewrite IH|]; apply os_write_requestId.
Qed.

Create HintDb tunnel discriminated.
#[local] Hint Resolve os_write_requestId os_destroy_requestId write_all_requestId
  write_until_full_requestId : tunnel.

Lemma set_stream_inv (handle : nat) (s s' : OriginStream) (a : AgentState) :
  agent_inv a -> streams a !! handle = Some s -> os_requestId s' = os_requestId s ->
  agent_inv (set_stream handle s' a).
Proof.
  intros Hinv Hs Hid id h Hm. simpl in *.
  destruct (Hinv id h Hm) as [s0 [Hs0 Hid0]].
  destruct (decide (handle = h)) as [->|Hne].
  - exists s'. split; [|congruence].
    apply list_lookup_insert_eq. now apply lookup_lt_Some in Hs.
  - exists s0. split; [|assumption]. now rewrite list_lookup_insert_ne.
Qed.

Lemma activeRequests_delete_inv (id : string) (a : AgentState) :
  agent_inv a -> agent_inv (activeRequests_delete id a).
Proof.
  intros Hinv id' h Hm. simpl in *.
  apply lookup_delete_Some in Hm. destruct Hm as [_ Hm]. now apply Hinv.
Qed.

Lemma activeRequests_get_Some (id : string) (handle : nat) (s : OriginStream)
    (a : AgentState) :
  activeRequests_get id a = Some (handle, s) ->
  activeRequests a !! id = Some handle /\ streams a !! handle = Some s.
Proof.
  unfold activeRequests_get.
  destruct (activeRequests a !! id) as [h|]; [|discriminate].
  destruct (streams a !! h) as [s0|] eqn:E; [|discriminate].
  intros H. injection H as <- <-. auto.
Qed.

Section AgentIsolation.

Variable version : AgentVersion.
Variable connect_throws : bool.
Variable request_throws : gmap string string -> option string.
Variable write_ok : OriginStream -> string -> bool.
Variable parseInt : string -> Z.
Variable HTTP_STATUS_CODES : Z -> option string.

Local Abbreviation on_frame :=
  (agent_on_frame version connect_throws request_throws write_ok).
Local Abbreviation on_origin :=
  (agent_on_origin version connect_throws parseInt HTTP_STATUS_CODES).

Lemma emit_inv (f : Frame) (a : AgentState) : agent_inv a -> agent_inv (emit f a).
Proof. intros H. exact H. Qed.

Lemma createLocalClient_inv (a : AgentState) :
  agent_inv a -> agent_inv (createLocalClient version connect_throws a).
Proof.
  intros H. unfold createLocalClient. destruct version, connect_throws; exact H.
Qed.

Lemma on_request_frame_inv (fam : Family) (id : string) (request : Descriptor)
    (a : AgentState) :
  agent_inv a ->
  agent_inv (on_request_frame version connect_throws request_throws fam id request a).
Proof.
  intros Hinv. unfold on_request_frame.
  destruct (not_connected a).
  - apply emit_inv. generalize (createLocalClient_inv a Hinv).
    destruct version; auto.
  - destruct (request_throws _); [exact Hinv|].
    intros id' h Hm. simpl in *.
    destruct (decide (id = id')) as [->|Hne].
    + rewrite lookup_insert_eq in Hm. injection Hm as <-.
      eexists. split;
        [rewrite lookup_app_r by reflexivity; now rewrite Nat.sub_diag | reflexivity].
    + rewrite lookup_insert_ne in Hm by assumption.
      destruct (Hinv id' h Hm) as [s [Hs Hid]]. exists s. split; [|assumption].
      now apply lookup_app_l_Some.
Qed.

Lemma on_frame_inv (f : Frame) (a : AgentState) : agent_inv a -> agent_inv (on_frame f a).
Proof.
  intros Hinv. destruct f as [fam m]. unfold agent_on_frame. simpl.
  destruct m; try exact Hinv.
  - now apply on_request_frame_inv.
  - unfold on_request_pipe.
    destruct (activeRequests_get id a) as [[h s]|] eqn:E; [|exact Hinv].
    apply activeRequests_get_Some in E. destruct E as [_ Hs].
    eapply set_stream_inv; eauto with tunnel.
  - unfold on_request_pipes.
    destruct (activeRequests_get id a) as [[h s]|] eqn:E; [|exact Hinv].
    apply activeRequests_get_Some in E. destruct E as [_ Hs].
    eapply set_stream_inv; eauto.
    destruct version, fam; auto with tunnel.
  - unfold on_request_pipe_end.
    destruct (activeRequests_get id a) as [[h s]|] eqn:E; [|exact Hinv].
    apply activeRequests_get_Some in E. destruct E as [_ Hs].
    eapply set_stream_inv; eauto.
  - unfold on_request_pipe_error.
    destruct (activeRequests_get id a) as [[h s]|] eqn:E; [|exact Hinv].
    apply activeRequests_get_Some in E. destruct E as [_ Hs].
    apply activeRequests_delete_inv.
    eapply set_stream_inv; eauto with tunnel.
Qed.

Lemma on_origin_inv (e : OriginEvent) (a : AgentState) :
  agent_inv a -> agent_inv (on_origin e a).
Proof.
  intros Hinv. destruct e; simpl;
    try (destruct (streams a !! handle) as [s|] eqn:Hs; [|exact Hinv]).
  - exact Hinv.
  - exact Hinv.
  - apply activeRequests_delete_inv. exact Hinv.
  - apply activeRequests_delete_inv. exact Hinv.
  - destruct version, (os_family s); try exact Hinv. now case_bool_decide.
  - destruct version, (os_family s); try exact Hinv.
    eapply set_stream_inv; eauto.
  - exact Hinv.
  - exact Hinv.
  - destruct (reconnect_timers a); [exact Hinv|]. apply createLocalClient_inv. exact Hinv.
  - generalize (createLocalClient_inv a Hinv).
    destruct version; [case_bool_decide|]; auto.
Qed.

Lemma agent_run_inv (inputs : list AgentInput) :
  agent_inv (agent_run version connect_throws request_throws write_ok parseInt
               HTTP_STATUS_CODES inputs).
Proof.
  unfold agent_run.
  assert (H : agent_inv agent_init) by (intros id h Hm; simpl in Hm; now rewrite lookup_empty in Hm).
  revert H. generalize agent_init.
  induction inputs as [|i inputs IH]; intros a H; simpl; [exact H|].
  apply IH. destruct i; simpl; [now apply on_frame_inv | now apply on_origin_inv].
Qed.

(** A frame for one id leaves the stream of every other id as it is. *)
Lemma on_frame_other_id (f : Frame) (j : string) (a : AgentState) :
  agent_inv a -> frame_id f <> j ->
  activeRequests_get j (on_frame f a) = activeRequests_get j a.
Proof.
  intros Hinv Hne. destruct f as [fam m]. unfold frame_id in Hne.
  unfold agent_on_frame. simpl in *.
  assert (Hset : forall h s s' x,
            activeRequests_get (msg_id m) a = Some (h, s) ->
            activeRequests x = activeRequests a ->
            streams x = <[ h := s' ]> (streams a) ->
            activeRequests_get j x = activeRequests_get j a).
  { intros h s s' x E Hx1 Hx2. apply activeRequests_get_Some in E. destruct E as [Hm Hs].
    unfold activeRequests_get. rewrite Hx1, Hx2.
    destruct (activeRequests a !! j) as [hj|] eqn:Ej; [|reflexivity].
    rewrite list_lookup_insert_ne; [reflexivity|].
    intros ->. destruct (Hinv _ _ Hm) as [s1 [Hs1 Hid1]].
    destruct (Hinv _ _ Ej) as [s2 [Hs2 Hid2]]. congruence. }
  destruct m; simpl in *; try reflexivity.
  - unfold on_request_frame. destruct (not_connected a).
    + generalize (createLocalClient_keeps version connect_throws a).
      unfold activeRequests_get.
      destruct version; simpl; [intros [-> [-> _]] | intros _]; reflexivity.
    + destruct (request_throws _); [reflexivity|].
      unfold activeRequests_get. simpl. rewrite lookup_insert_ne by assumption.
      destruct (activeRequests a !! j) as [hj|] eqn:Ej; [|reflexivity].
      destruct (Hinv _ _ Ej) as [s [Hs _]].
      now rewrite (lookup_app_l_Some _ _ _ _ Hs), Hs.
  - unfold on_request_pipe.
    destruct (activeRequests_get id a) as [[h s]|] eqn:E; [|reflexivity].
    eapply Hset; eauto; reflexivity.
  - unfold on_request_pipes.
    destruct (activeRequests_get id a) as [[h s]|] eqn:E; [|reflexivity].
    eapply Hset; eauto; reflexivity.
  - unfold on_request_pipe_end.
    destruct (activeRequests_get id a) as [[h s]|] eqn:E; [|reflexivity].
    eapply Hset; eauto; reflexivity.
  - unfold on_request_pipe_error.
    destruct (activeRequests_get id a) as [[h s]|] eqn:E; [|reflexivity].
    transitivity (activeRequests_get j (set_stream h (os_destroy error s) a)).
    + unfold activeRequests_get. simpl. now rewrite lookup_delete_ne.
    + eapply Hset; eauto; reflexivity.
Qed.

End AgentIsolation.

(** C2. Every response-side handler of a tunnel response leaves the state
    of its request as it is on a frame whose id is not its own; so for all
    requests in flight on a socket, the state of each (the bytes delivered to
    its client included) is the one its own frames alone produce, whatever
    frames of other ids come in between. At the agent, a frame for one id
    leaves the stream of every other id as it is. *)
Theorem C2_isolation :
  (forall (r : EdgeRequest) (f : Frame),
     frame_id f <> _responseId r -> deliver r f = r)
  /\ (forall (fs : list Frame) (rs : list EdgeRequest),
        socket_receive_all fs rs = map (fun r => deliver_all (frames_of r fs) r) rs)
  /\ (forall (fs fs' : list Frame) (r : EdgeRequest),
        frames_of r fs = frames_of r fs' ->
        res (deliver_all fs r) = res (deliver_all fs' r))
  /\ (forall version connect_throws request_throws write_ok parseInt HTTP_STATUS_CODES
             (inputs : list AgentInput) (f : Frame) (j : string),
        frame_id f <> j ->
        let a := agent_run version connect_throws request_throws write_ok parseInt
                   HTTP_STATUS_CODES inputs in
        activeRequests_get j
          (agent_on_frame version connect_throws request_throws write_ok f a)
        = activeRequests_get j a).
Proof.
  split; [exact deliver_other_id | split; [|split]].
  - intros fs rs. rewrite socket_receive_all_map. apply map_ext.
    intros r. apply deliver_all_frames_of.
  - intros fs fs' r H.
    now rewrite (deliver_all_frames_of fs), (deliver_all_frames_of fs'), H.
  - intros version connect_throws request_throws write_ok parseInt HTTP_STATUS_CODES
      inputs f j Hne a.
    apply on_frame_other_id; [apply agent_run_inv | assumption].
Qed.

(** Two requests in flight: cancelling ["i"] in the middle of the body of
    ["j"] changes nothing of what the client of ["j"] receives. *)
Example isolation_scenario :
  let frames_j :=
    [mkFrame http2 (m_response "j" 200 "OK" ∅); mkFrame http2 (m_response_pipe "j" "one");
     mkFrame http2 (m_response_pipe "j" "two"); mkFrame http2 (m_response_pipe_end "j" None)] in
  let mixed :=
    [mkFrame http2 (m_response "j" 200 "OK" ∅); mkFrame http2 (m_response_pipe "i" "x");
     mkFrame http2 (m_response_pipe "j" "one"); mkFrame http2 (m_request_error "i" "gone");
     mkFrame http2 (m_response_pipe "j" "two"); mkFrame http2 (m_response_pipe_end "j" None)] in
  map res (socket_receive_all mixed [handleHTTP2Request "i"; handleHTTP2Request "j"])
  = [mkServerResponse 502 (Some (mkHead 200 None ∅)) ["x"; "Request error"] true;
     res (deliver_all frames_j (handleHTTP2Request "j"))]
  /\ res (deliver_all frames_j (handleHTTP2Request "j"))
     = mkServerResponse 200 (Some (mkHead 200 (Some "OK") ∅)) ["one"; "two"] true.
Proof. split; reflexivity. Qed.

(** ** C6: an error before the response *)

Lemma deliver_listeners_off (r : EdgeRequest) (f : Frame) :
  listeners r = listeners_off -> deliver r f = r.
Proof.
  intros H. destruct f as [fam m]. unfold deliver. simpl. rewrite H.
  destruct fam; [reflexivity|]. now destruct m.
Qed.

Lemma deliver_all_listeners_off (fs : list Frame) (r : EdgeRequest) :
  listeners r = listeners_off -> deliver_all fs r = r.
Proof.
  intros H. unfold deliver_all.
  induction fs as [|f fs IH]; simpl; [reflexivity|].
  now rewrite deliver_listeners_off.
Qed.

Lemma deliver_all_other_ids (fs : list Frame) (r : EdgeRequest) :
  Forall (fun f => frame_id f <> _responseId r) fs -> deliver_all fs r = r.
Proof.
  unfold deliver_all. induction 1 as [|f fs Hf _ IH]; simpl; [reflexivity|].
  now rewrite deliver_other_id.
Qed.

Lemma deliver_all_app (fs gs : list Frame) (r : EdgeRequest) :
  deliver_all (fs ++ gs) r = deliver_all gs (deliver_all fs r).
Proof. unfold deliver_all. apply fold_left_app. Qed.

Lemma deliver_unanswered (id : string) (r : EdgeRequest) (f : Frame) :
  answers id f = false -> unanswered id r -> unanswered id (deliver r f).
Proof.
  intros Hf [Hid [Hres [Hl Ho]]].
  destruct (decide (frame_id f = _responseId r)) as [E|E];
    [|rewrite deliver_other_id by exact E; now repeat split].
  destruct f as [fam m]. unfold frame_id, answers, deliver in *. simpl in *.
  destruct fam; [now repeat split|].
  destruct m; simpl in E; try (now repeat split);
    try (rewrite bool_decide_eq_true_2 in Hf by congruence; discriminate).
  - destruct (on_http2_response_pipe_error (listeners r)); [|now repeat split].
    unfold onResponsePipeError, destroy.
    rewrite bool_decide_eq_true_2 by congruence. simpl.
    destruct (destroyed r); now repeat split.
  - destruct (on_http2_response_trailers (listeners r)); [|now repeat split].
    unfold onResponseTrailers. rewrite bool_decide_eq_true_2 by congruence.
    now repeat split.
Qed.

Lemma deliver_all_unanswered (id : string) (fs : list Frame) (r : EdgeRequest) :
  Forall (fun f => answers id f = false) fs -> unanswered id r ->
  unanswered id (deliver_all fs r).
Proof.
  unfold deliver_all. intros H. revert r.
  induction H as [|f fs Hf _ IH]; intros r Hr; simpl; [exact Hr|].
  apply IH. now apply deliver_unanswered.
Qed.

Lemma request_error_unanswered (id error : string) (r : EdgeRequest) :
  unanswered id r ->
  let r' := deliver r (mkFrame http2 (m_request_error id error)) in
  res r' = mkServerResponse 502 (Some (mkHead 502 None ∅)) ["Request error"] true
  /\ listeners r' = listeners_off
  /\ once_response r' = false.
Proof.
  intros [Hid [Hres [Hl Ho]]]. unfold deliver, onRequestError, emit_requestError. simpl.
  rewrite Hl, bool_decide_eq_true_2 by congruence. simpl. rewrite Ho.
  unfold handleHTTP2Request_onRequestError, destroy. simpl.
  destruct (destroyed r); simpl; rewrite Hres; repeat split.
Qed.

(** C6, as the code has it. For every request handled by
    [handleHTTP2Request]: when the request-error frame of its id arrives
    before the response frame and before any body or end frame of that id,
    the public client receives status 502 with the default reason phrase and
    the body ["Request error"], the response is finished, every listener of
    the request is detached, and no later frame, a response for the same id
    included, changes anything. *)
Theorem C6_request_error_before_response (requestId error : string)
    (before after : list Frame) :
  Forall (fun f => answers requestId f = false) before ->
  let r := deliver_all (before ++ [mkFrame http2 (m_request_error requestId error)])
             (handleHTTP2Request requestId) in
  res r = mkServerResponse 502 (Some (mkHead 502 None ∅)) ["Request error"] true
  /\ listeners r = listeners_off
  /\ once_response r = false
  /\ deliver_all after r = r.
Proof.
  intros Hb r.
  assert (Hu : unanswered requestId (deliver_all before (handleHTTP2Request requestId))).
  { apply deliver_all_unanswered; [exact Hb | now repeat split]. }
  destruct (request_error_unanswered requestId error _ Hu) as [Hres [Hl Ho]].
  assert (Hr : r = deliver (deliver_all before (handleHTTP2Request requestId))
                     (mkFrame http2 (m_request_error requestId error))).
  { unfold r. now rewrite deliver_all_app. }
  rewrite Hr. repeat split; try assumption.
  now apply deliver_all_listeners_off.
Qed.

Lemma C6_request_error_before_response_witness :
  let before := [mkFrame http2 (m_response "other" 200 "OK" ∅);
                 mkFrame http2 (m_response_pipe "other" "data");
                 mkFrame http2 (m_response_trailers "id" ∅)] in
  let after := [mkFrame http2 (m_response "id" 200 "OK" ∅);
                mkFrame http2 (m_response_pipe "id" "late")] in
  let r := deliver_all (before ++ [mkFrame http2 (m_request_error "id" "refused")])
             (handleHTTP2Request "id") in
  res r = mkServerResponse 502 (Some (mkHead 502 None ∅)) ["Request error"] true
  /\ listeners r = listeners_off
  /\ once_response r = false
  /\ deliver_all after r = r.
Proof.
  intros before after.
  apply (C6_request_error_before_response "id" "refused" before after).
  repeat constructor.
Defined.

(** C6 fails for the other error frame of the response side: on a
    response-pipe-error frame before the response the client is sent no
    status and no body, the tunnel response is destroyed with the response
    listener still attached, and a later response for the same id is written
    to the client. *)
Lemma C6_pipe_error_before_response :
  let r := deliver (handleHTTP2Request "id")
             (mkFrame http2 (m_response_pipe_error "id" "stream reset")) in
  res r = res_init
  /\ destroyed r = true
  /\ on_http2_response (listeners r) = true
  /\ res (deliver r (mkFrame http2 (m_response "id" 200 "OK" ∅)))
     = mkServerResponse 200 (Some (mkHead 200 (Some "OK") ∅)) [] false.
Proof. repeat split. Qed.

(** ** C4: backpressure *)

Lemma channel_init_inv : channel_inv channel_init.
Proof.
  constructor; simpl; intros; try contradiction;
    match goal with H : [] !! _ = Some _ |- _ => now rewrite lookup_nil in H end.
Qed.

Lemma emit_once_drain_inv (m : Method) (f : Frame) (ch : Channel) :
  (m <> meth_destroy -> is_body_frame f = true) ->
  channel_inv ch -> channel_inv (emit_once_drain m f ch).
Proof.
  intros Hf [Hfresh Huniq Hwait Hcall]. constructor; simpl.
  - intros e k f0 H. apply lookup_snoc_Some in H.
    destruct H as [[_ H]|[_ H]]; [apply Hfresh in H; lia | injection H as <- _; lia].
  - intros e e' k f0 f1 H H'. apply lookup_snoc_Some in H, H'.
    destruct H as [[_ H]|[He H]], H' as [[_ H']|[He' H']].
    + eauto.
    + injection H' as <- _. apply Hfresh in H. lia.
    + injection H as <- _. apply Hfresh in H'. lia.
    + congruence.
  - intros m0 k H. apply in_app_or in H. destruct H as [H|[H|[]]].
    + destruct (Hwait m0 k H) as [e [f0 [He Hb]]]. exists e, f0.
      split; [now apply lookup_app_l_Some | assumption].
    + injection H as <- <-. exists (length (ch_log ch)), f.
      split; [|assumption]. apply lookup_snoc_Some. right. auto.
  - intros p m0 k H Hm. apply lookup_snoc_Some in H.
    destruct H as [[_ H]|[_ H]]; [|discriminate].
    destruct (Hcall p m0 k H Hm) as [e [d [f0 [Hlt [He [Hb Hd]]]]]].
    exists e, d, f0. repeat split; try lia; auto using lookup_app_l_Some.
Qed.

Lemma call_back_destroy_inv (ch : Channel) :
  channel_inv ch -> channel_inv (call_back meth_destroy ch).
Proof.
  intros [Hfresh Huniq Hwait Hcall]. constructor; simpl.
  - intros e k f0 H. apply lookup_snoc_Some in H.
    destruct H as [[_ H]|[_ H]]; [apply Hfresh in H; lia | discriminate].
  - intros e e' k f0 f1 H H'. apply lookup_snoc_Some in H, H'.
    destruct H as [[_ H]|[_ H]], H' as [[_ H']|[_ H']]; try discriminate. eauto.
  - intros m0 k H. destruct (Hwait m0 k H) as [e [f0 [He Hb]]]. exists e, f0.
    split; [now apply lookup_app_l_Some | assumption].
  - intros p m0 k H Hm. apply lookup_snoc_Some in H.
    destruct H as [[_ H]|[_ H]]; [|congruence].
    destruct (Hcall p m0 k H Hm) as [e [d [f0 [Hlt [He [Hb Hd]]]]]].
    exists e, d, f0. repeat split; try lia; auto using lookup_app_l_Some.
Qed.

Lemma drained_holds_no_emit (pending : list (Method * nat)) (j k : nat) (f : Frame) :
  (l_drain :: map (fun c => l_callback (fst c) (snd c)) pending) !! j
    = Some (l_emit k f) -> False.
Proof.
  intros H. apply list_elem_of_lookup_2, list_elem_of_In in H.
  destruct H as [H|H]; [discriminate|].
  apply in_map_iff in H. destruct H as [c [H _]]. discriminate.
Qed.

Lemma conn_drain_inv (ch : Channel) : channel_inv ch -> channel_inv (conn_drain ch).
Proof.
  intros [Hfresh Huniq Hwait Hcall]. constructor; simpl.
  - intros e k f0 H. apply lookup_app_Some in H.
    destruct H as [H|[_ H]]; [eauto | now apply drained_holds_no_emit in H].
  - intros e e' k f0 f1 H H'. apply lookup_app_Some in H, H'.
    destruct H as [H|[_ H]]; [|now apply drained_holds_no_emit in H].
    destruct H' as [H'|[_ H']]; [eauto | now apply drained_holds_no_emit in H'].
  - contradiction.
  - intros p m k H Hm. apply lookup_app_Some in H. destruct H as [H|[Hp H]].
    + destruct (Hcall p m k H Hm) as [e [d [f0 [Hlt [He [Hb Hd]]]]]].
      exists e, d, f0. repeat split; try lia; auto using lookup_app_l_Some.
    + apply lookup_cons_Some in H. destruct H as [[_ H]|[Hp1 H]]; [discriminate|].
      apply list_elem_of_lookup_2, list_elem_of_In, in_map_iff in H.
      destruct H as [[m' k'] [E Hin]]. simpl in E. injection E as -> ->.
      destruct (Hwait m k Hin) as [e [f0 [He Hb]]].
      exists e, (length (ch_log ch)), f0.
      pose proof (lookup_lt_Some _ _ _ He).
      repeat split; try lia; auto using lookup_app_l_Some.
      rewrite lookup_app_r by lia. now rewrite Nat.sub_diag.
Qed.

Lemma channel_step_inv (ch : Channel) (op : ChannelOp) :
  channel_inv ch -> channel_inv (channel_step ch op).
Proof.
  intros H.
  destruct op as [c id chunk|c id chunks|c id|side id e|]; simpl.
  - destruct c; now apply emit_once_drain_inv.
  - destruct c; now apply emit_once_drain_inv.
  - destruct c; now apply emit_once_drain_inv.
  - destruct side, e;
      solve [ apply emit_once_drain_inv; [intros E; now contradiction E | exact H]
            | now apply call_back_destroy_inv ].
  - now apply conn_drain_inv.
Qed.

Lemma channel_run_inv (ops : list ChannelOp) : channel_inv (channel_run ops).
Proof.
  unfold channel_run. generalize channel_init_inv. generalize channel_init.
  induction ops as [|op ops IH]; intros ch H; simpl; [exact H|].
  apply IH, channel_step_inv, H.
Qed.

(** C4. After any sequence of calls of [_write], [_writev], [_final] and
    [_destroy] of the tunnel streams of both families on one control channel,
    interleaved with drains of the transport: wherever the completion
    callback of a [_write], [_writev] or [_final] is invoked, the body, batch
    or end frame of that call was emitted earlier and the transport has
    emitted ['drain'] in between; and each callback belongs to one emission
    only. *)
Theorem C4_callback_after_drain (ops : list ChannelOp) (p : nat) (m : Method) (k : nat) :
  ch_log (channel_run ops) !! p = Some (l_callback m k) ->
  m <> meth_destroy ->
  exists e d f,
    (e < d < p)%nat
    /\ ch_log (channel_run ops) !! e = Some (l_emit k f)
    /\ is_body_frame f = true
    /\ ch_log (channel_run ops) !! d = Some l_drain
    /\ forall e' f', ch_log (channel_run ops) !! e' = Some (l_emit k f') -> e' = e.
Proof.
  intros H Hm. destruct (channel_run_inv ops) as [_ Huniq _ Hcall].
  destruct (Hcall p m k H Hm) as [e [d [f [Hlt [He [Hb Hd]]]]]].
  exists e, d, f. repeat split; try lia; try assumption.
  intros e' f' He'. exact (Huniq e' e k f' f He' He).
Qed.

Lemma C4_callback_after_drain_witness :
  let ops := [op_write cls_HTTP2TunnelRequest "id" "chunk";
              op_writev cls_TunnelResponse "id2" ["a"; "b"];
              op_drain;
              op_final cls_HTTP2TunnelRequest "id"] in
  exists e d f,
    (e < d < 4)%nat
    /\ ch_log (channel_run ops) !! e = Some (l_emit 1 f)
    /\ is_body_frame f = true
    /\ ch_log (channel_run ops) !! d = Some l_drain
    /\ forall e' f', ch_log (channel_run ops) !! e' = Some (l_emit 1 f') -> e' = e.
Proof.
  intros ops.
  apply (C4_callback_after_drain ops 4 meth_writev 1); [reflexivity | discriminate].
Defined.

(** The log of that run. *)
Example backpressure_scenario :
  ch_log (channel_run [op_write cls_HTTP2TunnelRequest "id" "chunk";
                       op_writev cls_TunnelResponse "id2" ["a"; "b"];
                       op_drain;
                       op_final cls_HTTP2TunnelRequest "id"])
  = [l_emit 0 (mkFrame http2 (m_request_pipe "id" "chunk"));
     l_emit 1 (mkFrame http1 (m_response_pipes "id2" ["a"; "b"]));
     l_drain;
     l_callback meth_write 0;
     l_callback meth_writev 1;
     l_emit 2 (mkFrame http2 (m_request_pipe_end "id"))].
Proof. reflexivity. Qed.

(* ===================================================================== *)
(** * Further properties of the code                                     *)
(* ===================================================================== *)

(** ** The registry *)

(** X1. Removing a key twice is removing it once, removing a key that is
    not registered changes nothing, and after a removal the key is free. *)
Theorem X1_remove_idempotent (h p : option string) (ts : list TunnelSocketObj) :
  removeTunnelSocket h p (removeTunnelSocket h p ts) = removeTunnelSocket h p ts
  /\ (getTunnelSocket h p ts = None -> removeTunnelSocket h p ts = ts)
  /\ getTunnelSocket h p (removeTunnelSocket h p ts) = None.
Proof.
  assert (Hfree : getTunnelSocket h p (removeTunnelSocket h p ts) = None).
  { apply getTunnelSocket_None. intros Hin. apply in_map_iff in Hin.
    destruct Hin as [r [Hk Hr]]. apply removeTunnelSocket_In in Hr. tauto. }
  assert (Hnone : forall l, getTunnelSocket h p l = None -> removeTunnelSocket h p l = l).
  { intros l Hn. unfold removeTunnelSocket, getTunnelSocket in *.
    induction l as [|r l IH]; simpl in *; [reflexivity|].
    destruct (same_key h p r); [discriminate|]. simpl. now rewrite IH. }
  split; [|split]; auto.
Qed.

(** X2. [setTunnelSocket] appends and never replaces: for a free key the
    lookup then finds the new registration, with the capability read from the
    handshake, and removing the key gives the registry back; for a key that is
    taken the lookup still finds the old registration. Other keys are not
    affected. *)
Theorem X2_set_then_get (h p : option string) (sock : Socket)
    (ts : list TunnelSocketObj) :
  match getTunnelSocket h p ts with
  | None =>
      getTunnelSocket h p (setTunnelSocket h p sock ts)
        = Some (mkTunnelSocketObj h p sock
                  (bool_decide (handshake_headers sock !! "supports-http2" = Some "true")))
      /\ removeTunnelSocket h p (setTunnelSocket h p sock ts) = ts
  | Some r => getTunnelSocket h p (setTunnelSocket h p sock ts) = Some r
  end
  /\ forall h' p', (h', p') <> (h, p) ->
       getTunnelSocket h' p' (setTunnelSocket h p sock ts) = getTunnelSocket h' p' ts.
Proof.
  unfold getTunnelSocket, setTunnelSocket, removeTunnelSocket. split.
  - induction ts as [|r ts IH]; simpl.
    + unfold same_key. simpl. rewrite !bool_decide_eq_true_2 by reflexivity.
      simpl. auto.
    + destruct (same_key h p r) eqn:E; [reflexivity|].
      destruct (find (same_key h p) ts); [exact IH|].
      destruct IH as [IH1 IH2]. simpl. rewrite IH2. auto.
  - intros h' p' Hne. induction ts as [|r ts IH]; simpl.
    + destruct (same_key h' p' _) eqn:E; [|reflexivity].
      apply same_key_spec in E. unfold key_of in E. simpl in E. congruence.
    + destruct (same_key h' p' r); [reflexivity | exact IH].
Qed.

Section HandshakeProperties.

Variable jwt_verify : option string -> option string -> option (option string).
Variable env : Env.

Lemma io_use_ok (sock : Socket) (ts : list TunnelSocketObj) :
  io_use jwt_verify env sock ts = next_ok <->
  getTunnelSocket (handshake_headers sock !! "host")
    (handshake_headers sock !! "path-prefix") ts = None
  /\ truthy (handshake_auth_token sock) = true
  /\ jwt_verify (handshake_auth_token sock) (SECRET_KEY env) = Some (VERIFY_TOKEN env).
Proof.
  unfold io_use.
  destruct (getTunnelSocket _ _ ts); [split; [discriminate | intros [? _]; discriminate]|].
  destruct (truthy (handshake_auth_token sock)); simpl;
    [|split; [discriminate | intros [_ [? _]]; discriminate]].
  destruct (jwt_verify _ _) as [d|]; [|split; [discriminate | intros [_ [_ ?]]; discriminate]].
  case_bool_decide as E; simpl.
  - subst d. tauto.
  - split; [discriminate | intros [_ [_ H]]; congruence].
Qed.

End HandshakeProperties.

(** X3. A handshake is accepted exactly when its key is free, it carries a
    token, and the token verifies to the configured verification value. An
    accepted handshake appends one registration for its socket; a rejected one
    leaves the edge state as it was. *)
Theorem X3_handshake_accepted_iff
    (jwt_verify : option string -> option string -> option (option string))
    (env : Env) (sock : Socket) (st : EdgeState) :
  let key_h := handshake_headers sock !! "host" in
  let key_p := handshake_headers sock !! "path-prefix" in
  let out := handshake jwt_verify env sock st in
  (fst out = next_ok <->
     getTunnelSocket key_h key_p (tunnelSockets st) = None
     /\ truthy (handshake_auth_token sock) = true
     /\ jwt_verify (handshake_auth_token sock) (SECRET_KEY env) = Some (VERIFY_TOKEN env))
  /\ (fst out = next_ok ->
      tunnelSockets (snd out) =
        (tunnelSockets st ++
         [mkTunnelSocketObj key_h key_p sock
            (bool_decide (handshake_headers sock !! "supports-http2" = Some "true"))])%list)
  /\ (fst out <> next_ok -> snd out = st).
Proof.
  intros key_h key_p out. unfold out, handshake.
  pose proof (io_use_ok jwt_verify env sock (tunnelSockets st)) as Hok.
  destruct (io_use jwt_verify env sock (tunnelSockets st)) eqn:E; simpl.
  - split; [|split]; [| reflexivity | congruence].
    split; [intros _; now apply Hok | reflexivity].
  - split; [|split]; [| discriminate | reflexivity].
    split; [discriminate | intros H; apply Hok in H; discriminate].
Qed.

(** X4. A disconnection of a socket that carries no listener (one that
    never connected, or that has disconnected before) changes nothing, so
    disconnecting twice is disconnecting once. *)
Theorem X4_disconnect_once (sock : Socket) (st : EdgeState) :
  (~ In sock (disconnect_listeners st) -> on_disconnect sock st = st)
  /\ on_disconnect sock (on_disconnect sock st) = on_disconnect sock st.
Proof.
  assert (H1 : forall s, ~ In sock (disconnect_listeners s) -> on_disconnect sock s = s).
  { intros s Hn. unfold on_disconnect.
    rewrite bool_decide_eq_false_2; [reflexivity|]. now rewrite list_elem_of_In. }
  split; [apply H1|].
  destruct (decide (sock ∈ disconnect_listeners st)) as [Hin|Hn];
    rewrite list_elem_of_In in *; [|now rewrite !(H1 st Hn)].
  apply H1. unfold on_disconnect.
  rewrite bool_decide_eq_true_2 by now apply list_elem_of_In.
  simpl. rewrite filter_In. intros [_ H].
  rewrite bool_decide_eq_true_2 in H by reflexivity. discriminate.
Qed.

(** ** Routing *)

Lemma starts_with_same_length (u p q : string) :
  starts_with u p -> starts_with u q -> String.length p = String.length q -> p = q.
Proof.
  intros [r1 ->] [r2 E]. revert q E.
  induction p as [|a p IH]; intros [|b q] E Hl; simpl in *; try discriminate; [reflexivity|].
  injection E as -> E. injection Hl as Hl. f_equal. now apply IH.
Qed.

Lemma resolve_js_sort (R : list TunnelSocketObj) (h : option string) (u : string)
    (t : TunnelSocketObj) :
  getAvailableTunnelSocket h u R = Some t ->
  eligible R h u t /\ forall r, eligible R h u r -> prefix_length r <= prefix_length t.
Proof.
  unfold getAvailableTunnelSocket. intros E.
  pose proof (resolve_with_any_sort (js_sort tunnel_compare) R h u
                (js_sort_perm tunnel_compare _)
                (js_sort_sorted tunnel_compare tunnel_compare_asym tunnel_compare_trans _))
    as H.
  destruct (js_sort tunnel_compare _) as [|t' rest]; [discriminate|].
  injection E as ->. exact H.
Qed.

Lemma resolve_none (R : list TunnelSocketObj) (h : option string) (u : string) :
  getAvailableTunnelSocket h u R = None -> forall r, ~ eligible R h u r.
Proof.
  unfold getAvailableTunnelSocket. intros E.
  pose proof (resolve_with_any_sort (js_sort tunnel_compare) R h u
                (js_sort_perm tunnel_compare _)
                (js_sort_sorted tunnel_compare tunnel_compare_asym tunnel_compare_trans _))
    as H.
  destruct (js_sort tunnel_compare _) as [|t' rest]; [exact H | discriminate].
Qed.

Lemma longest_prefix_unique (R : list TunnelSocketObj) (h : option string) (u : string)
    (t r : TunnelSocketObj) :
  List.NoDup (map key_of R) ->
  getAvailableTunnelSocket h u R = Some t -> truthy (pathPrefix t) = true ->
  eligible R h u r -> r <> t -> prefix_length r < prefix_length t.
Proof.
  intros Hnd Ht Htt Hr Hne.
  destruct (resolve_js_sort R h u t Ht) as [Het Hmax].
  specialize (Hmax r Hr).
  destruct (Z.eq_dec (prefix_length r) (prefix_length t)) as [E|E]; [|lia].
  exfalso. apply Hne.
  pose proof (truthy_true_length _ Htt) as Hpos. fold (prefix_length t) in Hpos.
  assert (Htr : truthy (pathPrefix r) = true).
  { destruct (truthy (pathPrefix r)) eqn:F; [reflexivity|].
    apply truthy_false_length in F. fold (prefix_length r) in F. lia. }
  destruct Hr as [Hrin [Hrh [F|Hrs]]]; [congruence|].
  destruct Het as [Htin [Hth [F|Hts]]]; [congruence|].
  apply (NoDup_map_eq key_of R); auto.
  unfold key_of. f_equal; [congruence|].
  assert (Hs : or_empty (pathPrefix r) = or_empty (pathPrefix t)).
  { apply (starts_with_same_length u); auto.
    unfold prefix_length, jslength in E. lia. }
  destruct (pathPrefix r) as [[|]|], (pathPrefix t) as [[|]|]; simpl in *;
    try discriminate; now rewrite Hs.
Qed.

(** X5. In every state the edge reaches, routing by prefix is unambiguous:
    when the registration chosen for a request has a non-empty prefix, every
    other registration that matches the request has a strictly shorter
    prefix. *)
Theorem X5_longest_prefix_unique
    (jwt_verify : option string -> option string -> option (option string))
    (env : Env) (evs : list EdgeEvent) (h : option string) (u : string)
    (t r : TunnelSocketObj) :
  let ts := tunnelSockets (edge_run jwt_verify env evs) in
  getAvailableTunnelSocket h u ts = Some t -> truthy (pathPrefix t) = true ->
  eligible ts h u r -> r <> t -> prefix_length r < prefix_length t.
Proof.
  intros ts. apply longest_prefix_unique.
  apply (inv_unique _ (edge_run_inv jwt_verify env evs)).
Qed.

Lemma X5_longest_prefix_unique_witness :
  let verify := fun (t _ : option string) =>
                  if bool_decide (t = Some "t") then Some (Some "v") else None in
  let env := mkEnv (Some "k") (Some "v") None None in
  let agent := fun n p =>
    mkSocket n (<[ "host" := "h" ]> (<[ "path-prefix" := p ]> ∅)) (Some "t") in
  let short := mkTunnelSocketObj (Some "h") (Some "/api") (agent 1%nat "/api") false in
  let long := mkTunnelSocketObj (Some "h") (Some "/api_v1") (agent 2%nat "/api_v1") false in
  prefix_length short < prefix_length long.
Proof.
  intros verify env agent short long.
  apply (X5_longest_prefix_unique verify env
           [Handshake (agent 1%nat "/api"); Handshake (agent 2%nat "/api_v1")]
           (Some "h") "/api_v1/x" long short).
  - vm_compute. reflexivity.
  - reflexivity.
  - split; [vm_compute; auto | split; [reflexivity|]].
    right. exists "_v1/x". reflexivity.
  - discriminate.
Defined.

(** X6. [handleRequest] never crosses hosts: a request is handed, with the
    id minted for it, only to the socket of a registration whose host is the
    Host header of the request (and to [handleHTTP2Request] only if that
    registration supports HTTP/2); it is answered 404 exactly when no
    registration matches. *)
Theorem X6_no_cross_host (ts : list TunnelSocketObj) (requestId : string)
    (req : Request) :
  match handleRequest ts requestId req with
  | respond_404_not_found =>
      forall r, ~ eligible ts (headers req !! "host") (url req) r
  | call_handleHTTP2Request sock id =>
      id = requestId
      /\ exists t, eligible ts (headers req !! "host") (url req) t
                   /\ socket t = sock /\ supportsHTTP2 t = true
  | call_handleHTTP1Request sock id =>
      id = requestId
      /\ exists t, eligible ts (headers req !! "host") (url req) t /\ socket t = sock
  end.
Proof.
  unfold handleRequest.
  destruct (getAvailableTunnelSocket _ _ ts) as [t|] eqn:E.
  - destruct (resolve_js_sort _ _ _ _ E) as [He _].
    destruct (isHttp2 req && supportsHTTP2 t) eqn:F; (split; [reflexivity|]); exists t.
    + apply andb_true_iff in F. tauto.
    + tauto.
  - now apply resolve_none.
Qed.

(** ** Header conversion *)

Lemma rename_header_from (from to : string) (m : gmap string string) :
  truthy (rename_header from to m !! from) = false.
Proof.
  unfold rename_header. destruct (truthy (m !! from)) eqn:E; [|exact E].
  now rewrite lookup_delete_eq.
Qed.

Lemma rename_header_other (from to k : string) (m : gmap string string) :
  k <> from -> k <> to -> rename_header from to m !! k = m !! k.
Proof.
  intros H1 H2. unfold rename_header. destruct (truthy (m !! from)); [|reflexivity].
  rewrite lookup_delete_ne by congruence. now rewrite lookup_insert_ne by congruence.
Qed.

Lemma rename_header_falsy (from to k : string) (m : gmap string string) :
  k <> to -> truthy (m !! k) = false -> truthy (rename_header from to m !! k) = false.
Proof.
  intros H1 H2. destruct (decide (k = from)) as [->|Hne].
  - apply rename_header_from.
  - now rewrite rename_header_other.
Qed.

Lemma rename_header_to (from to : string) (m : gmap string string) :
  from <> to -> truthy (m !! from) = true -> rename_header from to m !! to = m !! from.
Proof.
  intros Hne H. unfold rename_header. rewrite H.
  rewrite lookup_delete_ne by congruence. rewrite lookup_insert_eq.
  destruct (m !! from); [reflexivity | discriminate].
Qed.

Lemma rename_header_id (from to : string) (m : gmap string string) :
  truthy (m !! from) = false -> rename_header from to m = m.
Proof. intros H. unfold rename_header. now rewrite H. Qed.

Ltac pseudo_gone :=
  repeat first [ apply rename_header_from
               | apply rename_header_falsy; [discriminate|] ].

(** X7. [convertHTTP2HeadersToHTTP1] leaves no pseudo-header with a
    non-empty value (one with an empty value stays where it is), carries each
    non-empty pseudo-header under its plain name ([:authority] under [host]),
    leaves every other header as it was, and converting twice is converting
    once. *)
Theorem X7_convertHTTP2HeadersToHTTP1 (hs : gmap string string) :
  let r := convertHTTP2HeadersToHTTP1 hs in
  (forall k, In k [":method"; ":path"; ":authority"; ":scheme"; ":status"] ->
     truthy (r !! k) = false)
  /\ (forall from to,
        In (from, to) [(":method", "method"); (":path", "path"); (":authority", "host");
                       (":scheme", "scheme"); (":status", "status")] ->
        truthy (hs !! from) = true -> r !! to = hs !! from)
  /\ (forall k,
        ~ In k [":method"; ":path"; ":authority"; ":scheme"; ":status";
                "method"; "path"; "host"; "scheme"; "status"] ->
        r !! k = hs !! k)
  /\ convertHTTP2HeadersToHTTP1 r = r.
Proof.
  intros r.
  assert (Hgone : forall k, In k [":method"; ":path"; ":authority"; ":scheme"; ":status"] ->
                            truthy (r !! k) = false).
  { intros k Hk. unfold r, convertHTTP2HeadersToHTTP1. simpl in Hk.
    destruct Hk as [<-|[<-|[<-|[<-|[<-|[]]]]]]; pseudo_gone. }
  split; [exact Hgone | split; [|split]].
  - intros from to Hin Ht. unfold r, convertHTTP2HeadersToHTTP1. simpl in Hin.
    destruct Hin as [E|[E|[E|[E|[E|[]]]]]]; injection E as <- <-;
      repeat (rewrite rename_header_other by discriminate);
      (rewrite rename_header_to;
       [repeat (rewrite rename_header_other by discriminate); reflexivity
       | discriminate
       | repeat (rewrite rename_header_other by discriminate); exact Ht]).
  - intros k Hk. unfold r, convertHTTP2HeadersToHTTP1. simpl in Hk.
    repeat (rewrite rename_header_other by (intros ->; apply Hk; tauto)). reflexivity.
  - unfold convertHTTP2HeadersToHTTP1 at 1.
    rewrite (rename_header_id ":method" _ r) by (apply Hgone; simpl; tauto).
    rewrite (rename_header_id ":path" _ r) by (apply Hgone; simpl; tauto).
    rewrite (rename_header_id ":authority" _ r) by (apply Hgone; simpl; tauto).
    rewrite (rename_header_id ":scheme" _ r) by (apply Hgone; simpl; tauto).
    apply rename_header_id, Hgone. simpl. tauto.
Qed.

(** X8. [convertHTTP1HeadersToHTTP2] never drops or changes a header other
    than [te]: every key outside the four pseudo-headers and [te] keeps its
    value. The scheme is always [https]; [:method], [:path] and [:authority]
    are set from a non-empty method, path and Host and are otherwise left as
    they were; and [te] becomes [trailers] exactly for a content type that
    contains [application/grpc]. *)
Theorem X8_convertHTTP1HeadersToHTTP2 (hs : gmap string string) (method path : string) :
  let r := convertHTTP1HeadersToHTTP2 hs method path in
  (forall k, ~ In k [":method"; ":path"; ":authority"; ":scheme"; "te"] ->
     r !! k = hs !! k)
  /\ r !! ":scheme" = Some "https"
  /\ r !! ":method" = (if truthy (Some method) then Some method else hs !! ":method")
  /\ r !! ":path" = (if truthy (Some path) then Some path else hs !! ":path")
  /\ r !! ":authority" = (if truthy (hs !! "host") then hs !! "host" else hs !! ":authority")
  /\ r !! "te" = (if is_grpc hs then Some "trailers" else hs !! "te").
Proof.
  intros r. unfold r, convertHTTP1HeadersToHTTP2.
  assert (Hct : is_grpc hs = true ->
                Some (or_empty (hs !! "content-type")) = hs !! "content-type").
  { unfold is_grpc. destruct (hs !! "content-type"); [reflexivity | discriminate]. }
  assert (Hhost : truthy (hs !! "host") = true ->
                  Some (or_empty (hs !! "host")) = hs !! "host").
  { destruct (hs !! "host"); [reflexivity | discriminate]. }
  repeat split.
  - intros k Hk. simpl in Hk.
    destruct (is_grpc hs) eqn:G.
    + rewrite lookup_insert_ne by (intros <-; tauto).
      destruct (decide (k = "content-type")) as [->|Hc].
      * rewrite lookup_insert_eq. now apply Hct.
      * rewrite lookup_insert_ne by congruence.
        rewrite lookup_insert_ne by (intros <-; tauto).
        destruct (truthy (hs !! "host")), (truthy (Some path)), (truthy (Some method));
          repeat (rewrite lookup_insert_ne by (intros <-; tauto)); reflexivity.
    + rewrite lookup_insert_ne by (intros <-; tauto).
      destruct (truthy (hs !! "host")), (truthy (Some path)), (truthy (Some method));
        repeat (rewrite lookup_insert_ne by (intros <-; tauto)); reflexivity.
  - destruct (is_grpc hs); repeat (rewrite lookup_insert_ne by discriminate);
      apply lookup_insert_eq.
  - destruct (is_grpc hs), (truthy (hs !! "host")), (truthy (Some path)),
      (truthy (Some method));
      repeat (rewrite lookup_insert_ne by discriminate);
      rewrite ?lookup_insert_eq; reflexivity.
  - destruct (is_grpc hs), (truthy (hs !! "host")), (truthy (Some path)),
      (truthy (Some method));
      repeat (rewrite lookup_insert_ne by discriminate);
      rewrite ?lookup_insert_eq; reflexivity.
  - destruct (truthy (hs !! "host")) eqn:Hh;
      destruct (is_grpc hs), (truthy (Some path)), (truthy (Some method));
      repeat (rewrite lookup_insert_ne by discriminate);
      rewrite ?lookup_insert_eq; auto.
  - destruct (is_grpc hs); [apply lookup_insert_eq|].
    destruct (truthy (hs !! "host")), (truthy (Some path)), (truthy (Some method));
      repeat (rewrite lookup_insert_ne by discriminate); reflexivity.
Qed.

(** ** Forwarded headers across two edges *)

Lemma getReqHeaders_lookup (url_port : string -> option string) (req : Request)
    (port : string) :
  url_port (origin_url req) = Some port ->
  exists hs,
    getReqHeaders url_port req = Some hs
    /\ hs !! "x-forwarded-for" =
         Some (appended (headers req !! "x-forwarded-for") (to_str (remoteAddress req)))
    /\ hs !! "x-forwarded-proto" =
         Some (appended (headers req !! "x-forwarded-proto") (forwarded_proto req))
    /\ hs !! "x-forwarded-host" =
         Some (if truthy (headers req !! "x-forwarded-host")
               then or_empty (headers req !! "x-forwarded-host")
               else or_empty (headers req !! "host")).
Proof.
  intros Hp. unfold getReqHeaders. fold (forwarded_proto req). fold (origin_url req).
  rewrite Hp. eexists. split; [reflexivity|].
  cbn [fold_left]. unfold forwardValues. simpl String.eqb. cbv iota.
  change ("x-forwarded-" ++ "for") with "x-forwarded-for".
  change ("x-forwarded-" ++ "port") with "x-forwarded-port".
  change ("x-forwarded-" ++ "proto") with "x-forwarded-proto".
  rewrite !appended_eq. fold (forwarded_proto req).
  repeat split.
  - rewrite !lookup_insert_ne by discriminate. apply lookup_insert_eq.
  - rewrite lookup_insert_ne by discriminate. apply lookup_insert_eq.
  - apply lookup_insert_eq.
Qed.

Lemma appended_nonempty (prior : option string) (new : string) :
  new <> "" -> truthy (Some (appended prior new)) = true.
Proof.
  intros H. destruct prior as [[|c s]|]; simpl; try reflexivity;
    destruct new; simpl; congruence.
Qed.

Lemma appended_Some (x new : string) :
  truthy (Some x) = true -> appended (Some x) new = x ++ "," ++ new.
Proof. destruct x; [discriminate | reflexivity]. Qed.

(** X9. Two edges in a row build a chain: when a request that went
    through [getReqHeaders] at one edge (from a client with a non-empty
    address) goes through it again at a second edge, [x-forwarded-for] and
    [x-forwarded-proto] hold the values of the first edge followed by a comma
    and the values of the second, and a non-empty [x-forwarded-host] keeps the
    value the first edge gave it. *)
Theorem X9_forwarded_chain (url_port1 url_port2 : string -> option string)
    (req1 req2 : Request) (hs1 : gmap string string) (port2 : string) :
  getReqHeaders url_port1 req1 = Some hs1 ->
  headers req2 = hs1 ->
  url_port2 (origin_url req2) = Some port2 ->
  to_str (remoteAddress req1) <> "" ->
  exists hs2,
    getReqHeaders url_port2 req2 = Some hs2
    /\ hs2 !! "x-forwarded-for" =
         Some (appended (headers req1 !! "x-forwarded-for") (to_str (remoteAddress req1))
               ++ "," ++ to_str (remoteAddress req2))
    /\ hs2 !! "x-forwarded-proto" =
         Some (appended (headers req1 !! "x-forwarded-proto") (forwarded_proto req1)
               ++ "," ++ forwarded_proto req2)
    /\ (truthy (hs1 !! "x-forwarded-host") = true ->
        hs2 !! "x-forwarded-host" = hs1 !! "x-forwarded-host").
Proof.
  intros H1 Hh Hp2 Hra.
  assert (Hp1 : exists port1, url_port1 (origin_url req1) = Some port1).
  { unfold getReqHeaders in H1. fold (forwarded_proto req1) in H1.
    fold (origin_url req1) in H1.
    destruct (url_port1 (origin_url req1)) as [p|]; [now exists p | discriminate]. }
  destruct Hp1 as [port1 Hp1].
  destruct (getReqHeaders_lookup url_port1 req1 port1 Hp1) as [hs [E [Hf [Hpr Hho]]]].
  rewrite H1 in E. injection E as <-.
  destruct (getReqHeaders_lookup url_port2 req2 port2 Hp2) as [hs2 [E2 [Hf2 [Hpr2 Hho2]]]].
  exists hs2. split; [exact E2|]. rewrite Hh in Hf2, Hpr2, Hho2.
  rewrite Hf in Hf2. rewrite Hpr in Hpr2.
  rewrite appended_Some in Hf2 by now apply appended_nonempty.
  rewrite appended_Some in Hpr2
    by (apply appended_nonempty; unfold forwarded_proto; now destruct (encrypted req1)).
  repeat split; try assumption.
  intros Ht. rewrite Hho2, Ht. destruct (hs1 !! "x-forwarded-host"); [reflexivity | discriminate].
Qed.

Lemma X9_forwarded_chain_witness :
  let port := fun _ : string => Some "" in
  let req1 := mkRequest "1.1" "GET" "/" (<[ "host" := "example.test" ]> ∅) true
                (Some "10.0.0.1") in
  let hs1 := default ∅ (getReqHeaders port req1) in
  let req2 := mkRequest "1.1" "GET" "/" hs1 false (Some "10.0.0.2") in
  exists hs2,
    getReqHeaders port req2 = Some hs2
    /\ hs2 !! "x-forwarded-for" = Some "10.0.0.1,10.0.0.2"
    /\ hs2 !! "x-forwarded-proto" = Some "https,http"
    /\ (truthy (hs1 !! "x-forwarded-host") = true ->
        hs2 !! "x-forwarded-host" = hs1 !! "x-forwarded-host").
Proof.
  intros port req1 hs1 req2.
  apply (X9_forwarded_chain port port req1 req2 hs1 "");
    [reflexivity | reflexivity | reflexivity | discriminate].
Defined.

(** ** The control channel *)

Lemma emitted_frames_snoc (log : list LogEntry) (e : LogEntry) :
  flat_map (fun e => match e with l_emit _ f => [f] | _ => [] end) (log ++ [e])
  = (flat_map (fun e => match e with l_emit _ f => [f] | _ => [] end) log
     ++ match e with l_emit _ f => [f] | _ => [] end)%list.
Proof. rewrite flat_map_app. simpl. now rewrite app_nil_r. Qed.

Lemma emitted_frames_emit (m : Method) (f : Frame) (ch : Channel) :
  emitted_frames (emit_once_drain m f ch) = (emitted_frames ch ++ [f])%list.
Proof. unfold emitted_frames. simpl. apply emitted_frames_snoc. Qed.

Lemma emitted_frames_call_back (m : Method) (ch : Channel) :
  emitted_frames (call_back m ch) = emitted_frames ch.
Proof.
  unfold emitted_frames. simpl. rewrite emitted_frames_snoc. apply app_nil_r.
Qed.

Lemma emitted_frames_drain (ch : Channel) :
  emitted_frames (conn_drain ch) = emitted_frames ch.
Proof.
  unfold emitted_frames. simpl. rewrite flat_map_app. simpl.
  induction (drain_once ch) as [|c l IH]; simpl; [apply app_nil_r | exact IH].
Qed.

Lemma emitted_frames_step (ch : Channel) (op : ChannelOp) :
  emitted_frames (channel_step ch op) = (emitted_frames ch ++ op_frames op)%list.
Proof.
  destruct op as [c id chunk|c id chunks|c id|side id e|]; simpl.
  - destruct c; apply emitted_frames_emit.
  - destruct c; apply emitted_frames_emit.
  - destruct c; apply emitted_frames_emit.
  - destruct side, e; simpl;
      first [apply emitted_frames_emit
            | rewrite emitted_frames_call_back; now rewrite app_nil_r].
  - rewrite emitted_frames_drain. now rewrite app_nil_r.
Qed.

Lemma emitted_frames_fold (ops : list ChannelOp) (ch : Channel) :
  emitted_frames (fold_left channel_step ops ch)
  = (emitted_frames ch ++ flat_map op_frames ops)%list.
Proof.
  revert ch. induction ops as [|op ops IH]; intros ch; simpl.
  - now rewrite app_nil_r.
  - rewrite IH, emitted_frames_step. now rewrite <- app_assoc.
Qed.

(** X10. Frames leave a control channel in the order of the calls that
    emit them, one frame per [_write], [_writev], [_final] and failing
    [_destroy]; a drain and a [_destroy] without an error put nothing on the
    channel. In particular the frames of one request leave in the order its
    stream was written. *)
Theorem X10_frames_in_call_order (ops : list ChannelOp) (id : string) :
  emitted_frames (channel_run ops) = flat_map op_frames ops
  /\ List.filter (fun f => bool_decide (frame_id f = id)) (emitted_frames (channel_run ops))
     = flat_map (fun op => List.filter (fun f => bool_decide (frame_id f = id)) (op_frames op))
         ops.
Proof.
  assert (H : emitted_frames (channel_run ops) = flat_map op_frames ops).
  { unfold channel_run. now rewrite emitted_frames_fold. }
  split; [exact H|]. rewrite H. clear H.
  induction ops as [|op ops IH]; simpl; [reflexivity|].
  now rewrite List.filter_app, IH.
Qed.

Lemma lookup_callbacks (pending : list (Method * nat)) (j : nat) (m : Method) (k : nat) :
  (l_drain :: map (fun c => l_callback (fst c) (snd c)) pending) !! j
    = Some (l_callback m k)
  <-> exists i, j = S i /\ pending !! i = Some (m, k).
Proof.
  destruct j as [|i]; simpl.
  - split; [discriminate | intros [i [H _]]; discriminate].
  - split.
    + intros H. exists i. split; [reflexivity|].
      revert i H. induction pending as [|[m0 k0] l IH]; intros [|i] H; simpl in *;
        try discriminate.
      * now injection H as -> ->.
      * now apply IH.
    + intros [i' [E H]]. injection E as <-.
      revert i H. induction pending as [|[m0 k0] l IH]; intros [|i] H; simpl in *;
        try discriminate.
      * now injection H as -> ->.
      * now apply IH.
Qed.

Lemma NoDup_snd_lookup (l : list (Method * nat)) (i j : nat) (m m' : Method) (k : nat) :
  List.NoDup (map snd l) -> l !! i = Some (m, k) -> l !! j = Some (m', k) -> i = j.
Proof.
  revert i j. induction l as [|[m0 k0] l IH]; intros i j Hnd Hi Hj; [discriminate|].
  simpl in Hnd. inversion Hnd as [|? ? Hnot Hnd']; subst.
  destruct i as [|i], j as [|j]; simpl in *.
  - reflexivity.
  - injection Hi as -> ->. exfalso. apply Hnot.
    apply list_elem_of_lookup_2, list_elem_of_In in Hj.
    apply in_map_iff. now exists (m', k).
  - injection Hj as -> ->. exfalso. apply Hnot.
    apply list_elem_of_lookup_2, list_elem_of_In in Hi.
    apply in_map_iff. now exists (m, k).
  - f_equal. now apply IH.
Qed.

Lemma callbacks_init : callbacks_inv channel_init.
Proof.
  constructor; simpl; intros;
    try contradiction; try constructor;
    try match goal with H : [] !! _ = Some _ |- _ => now rewrite lookup_nil in H end.
Qed.

Lemma callbacks_emit (m : Method) (f : Frame) (ch : Channel) :
  callbacks_inv ch -> callbacks_inv (emit_once_drain m f ch).
Proof.
  intros [Hnd Hwf Hcf Hwn Hco Hse]. constructor; simpl.
  - rewrite map_app. simpl.
    apply (Permutation_NoDup (l := ch_next ch :: map snd (drain_once ch)));
      [apply Permutation_cons_append|].
    constructor; [|exact Hnd]. intros Hin. apply in_map_iff in Hin.
    destruct Hin as [[m0 k0] [E Hin]]. simpl in E. subst k0.
    apply Hwf in Hin. lia.
  - intros m0 k Hin. apply in_app_or in Hin. destruct Hin as [Hin|[E|[]]].
    + apply Hwf in Hin. lia.
    + injection E as _ <-. lia.
  - intros p m0 k H. apply lookup_snoc_Some in H.
    destruct H as [[_ H]|[_ H]]; [apply Hcf in H; lia | discriminate].
  - intros m0 k p m' Hin H. apply lookup_snoc_Some in H.
    destruct H as [[_ H]|[_ H]]; [|discriminate].
    apply in_app_or in Hin. destruct Hin as [Hin|[E|[]]].
    + exact (Hwn _ _ _ _ Hin H).
    + injection E as _ <-. apply Hcf in H. lia.
  - intros p p' m0 m' k H H'. apply lookup_snoc_Some in H, H'.
    destruct H as [[_ H]|[_ H]], H' as [[_ H']|[_ H']]; try discriminate. eauto.
  - intros e k f0 H. apply lookup_snoc_Some in H. destruct H as [[_ H]|[_ H]].
    + destruct (Hse e k f0 H) as [[m0 Hin]|[p [m0 Hp]]].
      * left. exists m0. apply in_or_app. now left.
      * right. exists p, m0. now apply lookup_app_l_Some.
    + injection H as <- _. left. exists m. apply in_or_app. right. now left.
Qed.

Lemma callbacks_call_back (m : Method) (ch : Channel) :
  callbacks_inv ch -> callbacks_inv (call_back m ch).
Proof.
  intros [Hnd Hwf Hcf Hwn Hco Hse]. constructor; simpl.
  - exact Hnd.
  - intros m0 k Hin. apply Hwf in Hin. lia.
  - intros p m0 k H. apply lookup_snoc_Some in H.
    destruct H as [[_ H]|[_ H]]; [apply Hcf in H; lia | injection H as _ <-; lia].
  - intros m0 k p m' Hin H. apply lookup_snoc_Some in H.
    destruct H as [[_ H]|[_ H]]; [exact (Hwn _ _ _ _ Hin H)|].
    injection H as _ <-. apply Hwf in Hin. lia.
  - intros p p' m0 m' k H H'. apply lookup_snoc_Some in H, H'.
    destruct H as [[_ H]|[Hp H]], H' as [[_ H']|[Hp' H']].
    + eauto.
    + injection H' as _ <-. apply Hcf in H. lia.
    + injection H as _ <-. apply Hcf in H'. lia.
    + congruence.
  - intros e k f0 H. apply lookup_snoc_Some in H.
    destruct H as [[_ H]|[_ H]]; [|discriminate].
    destruct (Hse e k f0 H) as [[m0 Hin]|[p [m0 Hp]]].
    + left. now exists m0.
    + right. exists p, m0. now apply lookup_app_l_Some.
Qed.

Lemma callbacks_drain (ch : Channel) : callbacks_inv ch -> callbacks_inv (conn_drain ch).
Proof.
  intros [Hnd Hwf Hcf Hwn Hco Hse]. constructor; simpl.
  - constructor.
  - contradiction.
  - intros p m k H. apply lookup_app_Some in H. destruct H as [H|[_ H]]; [eauto|].
    apply lookup_callbacks in H. destruct H as [i [_ H]].
    apply list_elem_of_lookup_2, list_elem_of_In in H. eauto.
  - contradiction.
  - intros p p' m m' k H H'. apply lookup_app_Some in H, H'.
    destruct H as [H|[Hp H]], H' as [H'|[Hp' H']].
    + eauto.
    + apply lookup_callbacks in H'. destruct H' as [i [_ H']].
      apply list_elem_of_lookup_2, list_elem_of_In in H'.
      exfalso. exact (Hwn _ _ _ _ H' H).
    + apply lookup_callbacks in H. destruct H as [i [_ H]].
      apply list_elem_of_lookup_2, list_elem_of_In in H.
      exfalso. exact (Hwn _ _ _ _ H H').
    + apply lookup_callbacks in H, H'.
      destruct H as [i [Ei H]], H' as [i' [Ei' H']].
      pose proof (NoDup_snd_lookup _ _ _ _ _ _ Hnd H H'). lia.
  - intros e k f0 H. right. apply lookup_app_Some in H.
    destruct H as [H|[_ H]]; [|now apply drained_holds_no_emit in H].
    destruct (Hse e k f0 H) as [[m0 Hin]|[p [m0 Hp]]].
    + apply list_elem_of_In, list_elem_of_lookup_1 in Hin. destruct Hin as [i Hi].
      exists (length (ch_log ch) + S i)%nat, m0.
      rewrite lookup_app_r by lia.
      replace (length (ch_log ch) + S i - length (ch_log ch))%nat with (S i) by lia.
      apply lookup_callbacks. now exists i.
    + exists p, m0. now apply lookup_app_l_Some.
Qed.

Lemma callbacks_step (ch : Channel) (op : ChannelOp) :
  callbacks_inv ch -> callbacks_inv (channel_step ch op).
Proof.
  intros H. destruct op as [c id chunk|c id chunks|c id|side id e|]; simpl.
  - destruct c; now apply callbacks_emit.
  - destruct c; now apply callbacks_emit.
  - destruct c; now apply callbacks_emit.
  - destruct side, e; simpl;
      first [now apply callbacks_emit | now apply callbacks_call_back].
  - now apply callbacks_drain.
Qed.

Lemma callbacks_run (ops : list ChannelOp) : callbacks_inv (channel_run ops).
Proof.
  unfold channel_run. generalize callbacks_init. generalize channel_init.
  induction ops as [|op ops IH]; intros ch H; simpl; [exact H|].
  apply IH, callbacks_step, H.
Qed.

(** X11. No completion callback is invoked twice: in the log of a control
    channel, after any sequence of stream calls and drains, the callback of a
    call occurs at most once. *)
Theorem X11_callback_at_most_once (ops : list ChannelOp) (p p' : nat)
    (m m' : Method) (k : nat) :
  ch_log (channel_run ops) !! p = Some (l_callback m k) ->
  ch_log (channel_run ops) !! p' = Some (l_callback m' k) ->
  p = p'.
Proof. apply (cb_called_once _ (callbacks_run ops)). Qed.

Lemma X11_callback_at_most_once_witness :
  let ops := [op_write cls_HTTP2TunnelRequest "id" "chunk"; op_drain; op_drain] in
  2%nat = 2%nat.
Proof.
  intros ops.
  apply (X11_callback_at_most_once ops 2 2 meth_write meth_write 0); reflexivity.
Defined.

(** X12. One drain settles everything: after a drain no callback is left
    waiting, and every frame emitted before it has had the callback of its
    call invoked. *)
Theorem X12_drain_settles (ops : list ChannelOp) (e k : nat) (f : Frame) :
  ch_log (channel_run ops) !! e = Some (l_emit k f) ->
  drain_once (channel_run (ops ++ [op_drain])) = []
  /\ exists p m, ch_log (channel_run (ops ++ [op_drain])) !! p = Some (l_callback m k).
Proof.
  intros H. unfold channel_run. rewrite fold_left_app. simpl.
  fold (channel_run ops). split; [reflexivity|].
  pose proof (callbacks_drain _ (callbacks_run ops)) as Hinv.
  assert (H' : ch_log (conn_drain (channel_run ops)) !! e = Some (l_emit k f))
    by (simpl; now apply lookup_app_l_Some).
  destruct (cb_settled _ Hinv e k f H') as [[m0 Hin]|Hc]; [|exact Hc].
  simpl in Hin. contradiction.
Qed.

Lemma X12_drain_settles_witness :
  let ops := [op_write cls_HTTP2TunnelRequest "id" "chunk";
              op_final cls_HTTP2TunnelRequest "id"] in
  drain_once (channel_run (ops ++ [op_drain])) = []
  /\ exists p m, ch_log (channel_run (ops ++ [op_drain])) !! p = Some (l_callback m 1).
Proof.
  intros ops.
  exact (X12_drain_settles ops 1 1 (mkFrame http2 (m_request_pipe_end "id")) eq_refl).
Defined.

(** ** The response path at the edge *)

Lemma push_streaming (id : string) (c : Z) (m : string) (hs : gmap string string)
    (sofar : list string) (data : string) :
  push data (streaming id c m hs sofar) = streaming id c m hs (sofar ++ [data]).
Proof. reflexivity. Qed.

Lemma push_all_streaming (id : string) (c : Z) (m : string) (hs : gmap string string)
    (data sofar : list string) :
  fold_left (fun r chunk => push chunk r) data (streaming id c m hs sofar)
  = streaming id c m hs (sofar ++ data).
Proof.
  revert sofar. induction data as [|d data IH]; intros sofar; simpl.
  - now rewrite app_nil_r.
  - rewrite push_streaming, IH. now rewrite <- app_assoc.
Qed.

Lemma deliver_streaming (id : string) (c : Z) (m : string) (hs : gmap string string)
    (sofar : list string) (f : Frame) :
  is_response_body id f = true ->
  deliver (streaming id c m hs sofar) f = streaming id c m hs (sofar ++ body_chunks f).
Proof.
  destruct f as [fam msg0]. unfold is_response_body, body_chunks, deliver. simpl.
  destruct fam; [discriminate|].
  destruct msg0; try discriminate; intros H; apply bool_decide_eq_true in H; subst id0.
  - unfold onResponsePipe. simpl. rewrite bool_decide_eq_true_2 by reflexivity.
    apply push_streaming.
  - unfold onResponsePipes. simpl. rewrite bool_decide_eq_true_2 by reflexivity.
    apply push_all_streaming.
Qed.

Lemma deliver_all_streaming (id : string) (c : Z) (m : string) (hs : gmap string string)
    (fs : list Frame) (sofar : list string) :
  Forall (fun f => is_response_body id f = true) fs ->
  deliver_all fs (streaming id c m hs sofar)
  = streaming id c m hs (sofar ++ flat_map body_chunks fs).
Proof.
  unfold deliver_all. intros H. revert sofar.
  induction H as [|f fs Hf _ IH]; intros sofar; simpl.
  - now rewrite app_nil_r.
  - rewrite deliver_streaming by exact Hf. rewrite IH. now rewrite <- app_assoc.
Qed.



Lemma forget_push (data : string) (r : EdgeRequest) :
  forget_trailers (push data r) = forget_trailers (push data (forget_trailers r)).
Proof. unfold push. simpl. now destruct (destroyed r || ended r). Qed.

Lemma forget_push_all (data : list string) (r r' : EdgeRequest) :
  forget_trailers r = forget_trailers r' ->
  forget_trailers (fold_left (fun r chunk => push chunk r) data r)
  = forget_trailers (fold_left (fun r chunk => push chunk r) data r').
Proof.
  revert r r'. induction data as [|d data IH]; intros r r' H; simpl; [exact H|].
  apply IH. rewrite forget_push, (forget_push d r'). now rewrite H.
Qed.

Lemma forget_deliver (r r' : EdgeRequest) (f : Frame) :
  forget_trailers r = forget_trailers r' ->
  forget_trailers (deliver r f) = forget_trailers (deliver r' f).
Proof.
  intros H.
  destruct r as [id tr l d e o1 o2 te rs sn], r' as [id' tr' l' d' e' o1' o2' te' rs' sn'].
  unfold forget_trailers in H. simpl in H.
  injection H as -> -> -> -> -> -> -> ->.
  destruct f as [fam m]. unfold deliver. simpl.
  destruct fam; [reflexivity|].
  destruct m; try reflexivity;
    match goal with
    | |- forget_trailers (if ?b then _ else _) = _ => destruct b; [|reflexivity]
    end.
  - unfold onResponse, emit_response. simpl. case_bool_decide; [|reflexivity].
    simpl. now destruct o2'.
  - unfold onResponsePipe. simpl. case_bool_decide; [|reflexivity].
    unfold push. simpl. now destruct (d' || e').
  - unfold onResponsePipes. simpl. case_bool_decide; [|reflexivity].
    now apply forget_push_all.
  - unfold onResponsePipeEnd. simpl. case_bool_decide; simpl; [|reflexivity].
    unfold push_null, push. simpl.
    destruct data as [dt|], d', e', tr, tr'; reflexivity.
  - unfold onResponsePipeError, destroy. simpl. case_bool_decide; simpl; [|reflexivity].
    now destruct d'.
  - unfold onResponseTrailers. simpl. now case_bool_decide.
  - unfold onRequestError, emit_requestError. simpl. case_bool_decide; [|reflexivity].
    simpl. destruct o1'; [|reflexivity].
    unfold handleHTTP2Request_onRequestError, destroy. simpl. now destruct d'.
Qed.

Lemma forget_deliver_trailers (r : EdgeRequest) (f : Frame) :
  is_trailers_frame f = true -> forget_trailers (deliver r f) = forget_trailers r.
Proof.
  destruct f as [fam m]. unfold is_trailers_frame, deliver. simpl.
  destruct m; try discriminate. intros _.
  destruct fam; [reflexivity|].
  destruct (on_http2_response_trailers (listeners r)); [|reflexivity].
  unfold onResponseTrailers. now case_bool_decide.
Qed.

(** X14. Trailers never reach the public client: the frames of a trace
    that carry trailers can be left out without changing what the client
    receives, the frames the request sends back, or whether a listener is
    attached. The handlers store them and raise a ['trailers'] event at the
    end, to which nothing listens. *)
Theorem X14_trailers_not_delivered (fs : list Frame) (r : EdgeRequest) :
  let without := List.filter (fun f => negb (is_trailers_frame f)) fs in
  res (deliver_all fs r) = res (deliver_all without r)
  /\ sent (deliver_all fs r) = sent (deliver_all without r)
  /\ listeners (deliver_all fs r) = listeners (deliver_all without r).
Proof.
  intros without.
  assert (H : forall r r', forget_trailers r = forget_trailers r' ->
                forget_trailers (deliver_all fs r)
                = forget_trailers
                    (deliver_all (List.filter (fun f => negb (is_trailers_frame f)) fs) r')).
  { unfold deliver_all. induction fs as [|f fs IH]; intros r1 r2 E; simpl; [exact E|].
    destruct (is_trailers_frame f) eqn:T; simpl.
    - apply IH. now rewrite forget_deliver_trailers.
    - apply IH. now apply forget_deliver. }
  specialize (H r r eq_refl). fold without in H.
  repeat split; now injection H.
Qed.

(** ** Loss of the control channel *)

Lemma exchange_run_frames (fs : list Frame) (ex : Exchange) :
  exchange_run (map ex_frame fs) ex
  = mkExchange (deliver_all fs (ex_request ex)) (once_disconnect ex) (once_close ex).
Proof.
  unfold exchange_run, deliver_all. revert ex.
  induction fs as [|f fs IH]; intros ex; simpl; [now destruct ex|].
  now rewrite IH.
Qed.

Lemma disconnect_after_frames (id : string) (fs : list Frame) :
  ex_request (exchange_run (map ex_frame fs ++ [ex_disconnect]) (exchange_init id))
  = set_res
      (res_end None (res_set_statusCode 500 (res (deliver_all fs (handleHTTP2Request id)))))
      (deliver_all fs (handleHTTP2Request id)).
Proof.
  unfold exchange_run. rewrite fold_left_app. fold (exchange_run (map ex_frame fs)).
  rewrite exchange_run_frames. reflexivity.
Qed.



(** ** The agent: request bodies *)

Lemma os_write_live (chunk : string) (s : OriginStream) :
  os_live s -> os_write chunk s = os_append [chunk] s /\ os_live (os_append [chunk] s).
Proof.
  intros [He Hd]. unfold os_write, os_append, os_live. rewrite He, Hd. simpl. auto.
Qed.

Lemma os_append_app (xs ys : list string) (s : OriginStream) :
  os_append ys (os_append xs s) = os_append (xs ++ ys) s.
Proof. unfold os_append. simpl. now rewrite <- app_assoc. Qed.

Lemma os_append_nil (s : OriginStream) : os_append [] s = s.
Proof. destruct s. unfold os_append. simpl. now rewrite app_nil_r. Qed.

Lemma write_all_live (chunks : list string) (s : OriginStream) :
  os_live s -> write_all chunks s = os_append chunks s.
Proof.
  unfold write_all. revert s.
  induction chunks as [|c chunks IH]; intros s Hs; simpl; [now rewrite os_append_nil|].
  destruct (os_write_live c s Hs) as [-> Hl]. rewrite IH by exact Hl.
  apply os_append_app.
Qed.

Lemma set_stream_get (id : string) (h : nat) (s s' : OriginStream) (a : AgentState) :
  activeRequests_get id a = Some (h, s) ->
  activeRequests_get id (set_stream h s' a) = Some (h, s').
Proof.
  intros H. apply activeRequests_get_Some in H. destruct H as [Hm Hs].
  unfold activeRequests_get. simpl. rewrite Hm.
  rewrite list_lookup_insert_eq; [reflexivity|]. now apply lookup_lt_Some in Hs.
Qed.

Section AgentBodies.

Variable version : AgentVersion.
Variable connect_throws : bool.
Variable request_throws : gmap string string -> option string.
Variable write_ok : OriginStream -> string -> bool.

Local Abbreviation on_frame :=
  (agent_on_frame version connect_throws request_throws write_ok).
Local Abbreviation receive :=
  (agent_receive version connect_throws request_throws write_ok).

Lemma receive_inv (fs : list Frame) (a : AgentState) :
  agent_inv a -> agent_inv (receive fs a).
Proof.
  unfold agent_receive. revert a.
  induction fs as [|f fs IH]; intros a H; simpl; [exact H|].
  apply IH. now apply on_frame_inv.
Qed.

Lemma receive_other_ids (id : string) (fs : list Frame) (a : AgentState) :
  agent_inv a ->
  List.filter (fun f => bool_decide (frame_id f = id)) fs = [] ->
  activeRequests_get id (receive fs a) = activeRequests_get id a.
Proof.
  unfold agent_receive. revert a.
  induction fs as [|f fs IH]; intros a Hinv Hf; simpl in *; [reflexivity|].
  case_bool_decide as E; [discriminate|].
  rewrite IH; [|now apply on_frame_inv | exact Hf].
  now apply on_frame_other_id.
Qed.

Lemma receive_cons (f : Frame) (fs : list Frame) (a : AgentState) :
  receive (f :: fs) a = receive fs (on_frame f a).
Proof. reflexivity. Qed.

Lemma receive_body (fam : Family) (id : string) (h : nat) (chunks : list string)
    (finish : bool) (fs : list Frame) (a : AgentState) (s : OriginStream) :
  agent_inv a -> activeRequests_get id a = Some (h, s) -> os_live s ->
  List.filter (fun f => bool_decide (frame_id f = id)) fs
    = (map (fun c => mkFrame fam (m_request_pipe id c)) chunks
       ++ if finish then [mkFrame fam (m_request_pipe_end id)] else [])%list ->
  activeRequests_get id (receive fs a)
  = Some (h, if finish then os_end (os_append chunks s) else os_append chunks s).
Proof.
  revert a s chunks. induction fs as [|f fs IH]; intros a s chunks Hinv Hg Hl Hf.
  - simpl in Hf. destruct chunks; [|discriminate].
    destruct finish; [discriminate|]. simpl. now rewrite os_append_nil.
  - simpl in Hf. rewrite receive_cons.
    pose proof (on_frame_inv version connect_throws request_throws write_ok f a Hinv)
      as Hinv'.
    case_bool_decide as E.
    + destruct chunks as [|c chunks]; simpl in Hf.
      * destruct finish; [|discriminate]. injection Hf as -> Hf.
        rewrite receive_other_ids by assumption.
        unfold agent_on_frame, on_request_pipe_end. simpl. rewrite Hg.
        rewrite (set_stream_get _ _ _ _ _ Hg). now rewrite os_append_nil.
      * injection Hf as -> Hf.
        destruct (os_write_live c s Hl) as [Hw Hl'].
        rewrite (IH _ (os_append [c] s) chunks); try assumption.
        -- now rewrite os_append_app.
        -- unfold agent_on_frame, on_request_pipe. simpl. rewrite Hg, Hw.
           now apply (set_stream_get _ _ _ _ _ Hg).
    + rewrite (IH _ s chunks); try assumption; [reflexivity|].
      rewrite <- Hg. now apply on_frame_other_id.
Qed.

End AgentBodies.

(** X16. The agent hands a request body to the origin byte for byte. In
    any state the agent reaches, when a stream is open and writable for a
    request and the frames that carry its id, among the frames of any other
    requests, are body chunks followed by its end frame, the origin stream has
    received exactly those chunks in order after what it had, and is
    half-closed. *)
Theorem X16_request_body_in_order (version : AgentVersion) (connect_throws : bool)
    (request_throws : gmap string string -> option string)
    (write_ok : OriginStream -> string -> bool)
    (parseInt : string -> Z) (HTTP_STATUS_CODES : Z -> option string)
    (inputs : list AgentInput) (fam : Family) (id : string) (h : nat)
    (s : OriginStream) (chunks : list string) (fs : list Frame) :
  let a := agent_run version connect_throws request_throws write_ok parseInt
             HTTP_STATUS_CODES inputs in
  activeRequests_get id a = Some (h, s) -> os_live s ->
  List.filter (fun f => bool_decide (frame_id f = id)) fs
    = (map (fun c => mkFrame fam (m_request_pipe id c)) chunks
       ++ [mkFrame fam (m_request_pipe_end id)])%list ->
  activeRequests_get id (agent_receive version connect_throws request_throws write_ok fs a)
  = Some (h, os_end (os_append chunks s)).
Proof.
  intros a Hg Hl Hf.
  apply (receive_body version connect_throws request_throws write_ok fam id h chunks true);
    auto.
  apply agent_run_inv.
Qed.

Lemma X16_request_body_in_order_witness :
  let request := mkDescriptor "POST" ∅ "/up" (Some "2.0") in
  let inputs := [from_origin socket_connect;
                 from_socket (mkFrame http2 (m_request "id" request))] in
  let fs := [mkFrame http2 (m_request_pipe "id" "ab");
             mkFrame http2 (m_request_pipe "other" "zz");
             mkFrame http2 (m_request_pipe "id" "cd");
             mkFrame http2 (m_request_pipe_end "id")] in
  let s := mkOriginStream (<[ ":scheme" := "https" ]> (<[ ":path" := "/up" ]>
             (<[ ":method" := "POST" ]> ∅))) [] false None false "id" http2 false in
  activeRequests_get "id"
    (agent_receive http2client_example false (fun _ => None) (fun _ _ => true) fs
       (agent_run http2client_example false (fun _ => None) (fun _ _ => true)
          (fun _ => 200) (fun _ => None) inputs))
  = Some (0%nat, os_end (os_append ["ab"; "cd"] s)).
Proof.
  intros request inputs fs s.
  apply (X16_request_body_in_order http2client_example false (fun _ => None)
           (fun _ _ => true) (fun _ => 200) (fun _ => None) inputs http2 "id" 0 s
           ["ab"; "cd"] fs).
  - reflexivity.
  - split; reflexivity.
  - reflexivity.
Defined.

Lemma write_until_full_roomy (write_ok : OriginStream -> string -> bool)
    (chunks : list string) (s : OriginStream) :
  (forall s c, write_ok s c = true) ->
  write_until_full write_ok chunks s = write_all chunks s.
Proof.
  intros H. unfold write_all. revert s.
  induction chunks as [|c chunks IH]; intros s; simpl; [reflexivity|].
  now rewrite H, IH.
Qed.

(** X17. A batch of body chunks is written in full by every batch handler
    as long as the origin stream reports room. When the stream reports no room
    on the first chunk of a batch, the HTTP/2 handler of
    [http2client-example.js] writes that chunk and drops the rest of the
    batch, while the other batch handlers still write every chunk. *)
Theorem X17_batch_written_or_dropped (version : AgentVersion) (connect_throws : bool)
    (request_throws : gmap string string -> option string)
    (fam : Family) (id : string) (h : nat) (s : OriginStream) (a : AgentState) :
  activeRequests_get id a = Some (h, s) -> os_live s ->
  (forall write_ok chunks,
     (forall s c, write_ok s c = true) ->
     activeRequests_get id
       (agent_on_frame version connect_throws request_throws write_ok
          (mkFrame fam (m_request_pipes id chunks)) a)
     = Some (h, os_append chunks s))
  /\ (forall write_ok c rest,
        write_ok s c = false ->
        activeRequests_get id
          (agent_on_frame version connect_throws request_throws write_ok
             (mkFrame fam (m_request_pipes id (c :: rest))) a)
        = Some (h, os_append (match version, fam with
                              | http2client_example, http2 => [c]
                              | _, _ => c :: rest
                              end) s)).
Proof.
  intros Hg Hl. split.
  - intros write_ok chunks Hroom. unfold agent_on_frame, on_request_pipes. simpl.
    rewrite Hg. rewrite (set_stream_get _ _ _ _ _ Hg).
    rewrite write_until_full_roomy by exact Hroom.
    rewrite write_all_live by exact Hl. now destruct version, fam.
  - intros write_ok c rest Hfull. unfold agent_on_frame, on_request_pipes. simpl.
    rewrite Hg. rewrite (set_stream_get _ _ _ _ _ Hg).
    destruct version, fam;
      try (change (write_all rest (os_write c s)) with (write_all (c :: rest) s);
           rewrite write_all_live by exact Hl; reflexivity).
    rewrite Hfull. now destruct (os_write_live c s Hl) as [-> _].
Qed.

Lemma X17_batch_written_or_dropped_witness :
  let request := mkDescriptor "POST" ∅ "/up" (Some "2.0") in
  let a := agent_on_frame http2client_example false (fun _ => None) (fun _ _ => true)
             (mkFrame http2 (m_request "id" request))
             (mkAgentState (Some false) ∅ [] [] 0%nat) in
  let s := mkOriginStream (<[ ":scheme" := "https" ]> (<[ ":path" := "/up" ]>
             (<[ ":method" := "POST" ]> ∅))) [] false None false "id" http2 false in
  activeRequests_get "id"
    (agent_on_frame http2client_example false (fun _ => None) (fun _ _ => false)
       (mkFrame http2 (m_request_pipes "id" ["a"; "b"; "c"])) a)
  = Some (0%nat, os_append ["a"] s).
Proof.
  intros request a s.
  refine (proj2 (X17_batch_written_or_dropped http2client_example false (fun _ => None)
                   http2 "id" 0 s a eq_refl (conj eq_refl eq_refl))
            (fun _ _ => false) "a" ["b"; "c"] eq_refl).
Defined.

(** ** The agent: what it sends back *)

(** X18. Whatever an origin stream reports, the agent sends back at most
    one frame, under the request id and in the event family the request of
    that stream came in with; events of the origin session and timers send
    nothing. *)
Theorem X18_replies_carry_request_id (version : AgentVersion) (connect_throws : bool)
    (parseInt : string -> Z) (HTTP_STATUS_CODES : Z -> option string)
    (e : OriginEvent) (a : AgentState) :
  exists fs,
    emitted (agent_on_origin version connect_throws parseInt HTTP_STATUS_CODES e a)
      = (emitted a ++ fs)%list
    /\ (length fs <= 1)%nat
    /\ forall f, In f fs ->
         exists h s, event_handle e = Some h /\ streams a !! h = Some s
                     /\ frame_id f = os_requestId s /\ family f = os_family s.
Proof.
  assert (Hnone : forall a', emitted a' = emitted a ->
            exists fs, emitted a' = (emitted a ++ fs)%list /\ (length fs <= 1)%nat
              /\ forall f, In f fs ->
                   exists h s, event_handle e = Some h /\ streams a !! h = Some s
                               /\ frame_id f = os_requestId s /\ family f = os_family s).
  { intros a' E. exists []. rewrite app_nil_r. split; [exact E|].
    split; [simpl; lia | intros f []]. }
  assert (Hone : forall a' h s f, event_handle e = Some h -> streams a !! h = Some s ->
            emitted a' = (emitted a ++ [f])%list ->
            frame_id f = os_requestId s -> family f = os_family s ->
            exists fs, emitted a' = (emitted a ++ fs)%list /\ (length fs <= 1)%nat
              /\ forall f, In f fs ->
                   exists h s, event_handle e = Some h /\ streams a !! h = Some s
                               /\ frame_id f = os_requestId s /\ family f = os_family s).
  { intros a' h s f Hh Hs E Hid Hfam. exists [f]. split; [exact E|].
    split; [simpl; lia|]. intros f' [<-|[]]. now exists h, s. }
  destruct e; simpl in *;
    try (destruct (streams a !! handle) as [s|] eqn:Hs; [|now apply Hnone]).
  - eapply Hone; eauto; reflexivity.
  - eapply Hone; eauto; reflexivity.
  - eapply Hone; eauto; reflexivity.
  - eapply Hone; eauto; reflexivity.
  - destruct version, (os_family s) eqn:Hf; try (now apply Hnone).
    case_bool_decide; [now apply Hnone|].
    eapply Hone; eauto; first [reflexivity | now rewrite Hf].
  - destruct version, (os_family s); now apply Hnone.
  - now apply Hnone.
  - now apply Hnone.
  - destruct (reconnect_timers a); [now apply Hnone|].
    apply Hnone. unfold createLocalClient. now destruct version, connect_throws.
  - apply Hnone. unfold createLocalClient.
    destruct version; [case_bool_decide|]; now destruct connect_throws.
Qed.

(** ** From end to end *)

Lemma filter_op_frames (id : string) (op : ChannelOp) :
  List.filter (fun f => bool_decide (frame_id f = id)) (op_frames op)
  = if bool_decide (op_id op = Some id) then op_frames op else [].
Proof.
  destruct op as [c i chunk|c i chunks|c i|side i e|]; simpl.
  - destruct c; simpl; unfold frame_id; simpl;
      destruct (decide (i = id)) as [->|Hne];
      rewrite ?bool_decide_eq_true_2, ?bool_decide_eq_false_2 by congruence; reflexivity.
  - destruct c; simpl; unfold frame_id; simpl;
      destruct (decide (i = id)) as [->|Hne];
      rewrite ?bool_decide_eq_true_2, ?bool_decide_eq_false_2 by congruence; reflexivity.
  - destruct c; simpl; unfold frame_id; simpl;
      destruct (decide (i = id)) as [->|Hne];
      rewrite ?bool_decide_eq_true_2, ?bool_decide_eq_false_2 by congruence; reflexivity.
  - destruct side, e; simpl; unfold frame_id; simpl;
      destruct (decide (i = id)) as [->|Hne];
      rewrite ?bool_decide_eq_true_2, ?bool_decide_eq_false_2 by congruence; reflexivity.
  - reflexivity.
Qed.

Lemma filter_flat_map_op_frames (id : string) (ops : list ChannelOp) :
  List.filter (fun f => bool_decide (frame_id f = id)) (flat_map op_frames ops)
  = flat_map op_frames (List.filter (fun op => bool_decide (op_id op = Some id)) ops).
Proof.
  induction ops as [|op ops IH]; simpl; [reflexivity|].
  rewrite List.filter_app, IH, filter_op_frames.
  destruct (bool_decide (op_id op = Some id)); reflexivity.
Qed.

Lemma op_frames_writes (id : string) (chunks : list string) :
  flat_map op_frames
    (map (op_write cls_HTTP2TunnelRequest id) chunks ++ [op_final cls_HTTP2TunnelRequest id])
  = (map (fun c => mkFrame http2 (m_request_pipe id c)) chunks
     ++ [mkFrame http2 (m_request_pipe_end id)])%list.
Proof. induction chunks as [|c chunks IH]; simpl; [reflexivity | now rewrite IH]. Qed.





Section ResponseEndToEnd.

Variable version : AgentVersion.
Variable connect_throws : bool.
Variable parseInt : string -> Z.
Variable HTTP_STATUS_CODES : Z -> option string.

Local Abbreviation on_origin :=
  (agent_on_origin version connect_throws parseInt HTTP_STATUS_CODES).
Local Abbreviation origin_events :=
  (agent_origin_events version connect_throws parseInt HTTP_STATUS_CODES).

Lemma origin_events_app (es es' : list OriginEvent) (a : AgentState) :
  origin_events (es ++ es') a = origin_events es' (origin_events es a).
Proof. unfold agent_origin_events. apply fold_left_app. Qed.

Lemma origin_events_cons (e : OriginEvent) (es : list OriginEvent) (a : AgentState) :
  origin_events (e :: es) a = origin_events es (on_origin e a).
Proof. reflexivity. Qed.

Lemma origin_data (h : nat) (s : OriginStream) (chunks : list string) (a : AgentState) :
  streams a !! h = Some s ->
  let a' := origin_events (map (stream_data h) chunks) a in
  emitted a' = (emitted a
                ++ map (fun c => mkFrame (os_family s) (m_response_pipe (os_requestId s) c))
                     chunks)%list
  /\ streams a' = streams a.
Proof.
  revert a. induction chunks as [|c chunks IH]; intros a Hs; cbv zeta.
  - simpl. now rewrite app_nil_r.
  - cbn [map]. rewrite origin_events_cons. unfold agent_on_origin. rewrite Hs.
    destruct (IH (emit (mkFrame (os_family s) (m_response_pipe (os_requestId s) c)) a))
      as [He Hst]; [exact Hs|].
    rewrite He, Hst. simpl. now rewrite <- app_assoc.
Qed.

Lemma origin_replies (h : nat) (s : OriginStream) (hs : gmap string string)
    (chunks : list string) (a : AgentState) :
  streams a !! h = Some s ->
  let a' := origin_events (stream_response h hs :: map (stream_data h) chunks
                           ++ [stream_end h]) a in
  exists message rh,
    emitted a' =
      (emitted a
       ++ mkFrame (os_family s)
            (m_response (os_requestId s)
               (if truthy (hs !! ":status") then parseInt (or_empty (hs !! ":status"))
                else 200) message rh)
          :: map (fun c => mkFrame (os_family s) (m_response_pipe (os_requestId s) c)) chunks
       ++ [mkFrame (os_family s) (m_response_pipe_end (os_requestId s) None)])%list
    /\ activeRequests a' !! os_requestId s = None.
Proof.
  intros Hs a'. unfold a'.
  change (stream_response h hs :: map (stream_data h) chunks ++ [stream_end h])
    with ([stream_response h hs] ++ map (stream_data h) chunks ++ [stream_end h])%list.
  rewrite !origin_events_app.
  set (a1 := origin_events [stream_response h hs] a).
  assert (H1 : exists message rh,
             emitted a1 = (emitted a ++ [mkFrame (os_family s)
               (m_response (os_requestId s)
                  (if truthy (hs !! ":status") then parseInt (or_empty (hs !! ":status"))
                   else 200) message rh)])%list
             /\ streams a1 = streams a).
  { unfold a1, agent_origin_events. simpl. rewrite Hs. simpl. eauto. }
  destruct H1 as [message [rh [He1 Hs1]]].
  destruct (origin_data h s chunks a1) as [He2 Hs2]; [now rewrite Hs1|].
  exists message, rh.
  unfold agent_origin_events at 1. simpl. rewrite Hs2, Hs1, Hs. simpl.
  split; [|apply lookup_delete_eq].
  rewrite He2, He1. rewrite <- !app_assoc. reflexivity.
Qed.

End ResponseEndToEnd.



(** ** Upgrade requests *)

Lemma string_app_assoc (a b c : string) : (a ++ b) ++ c = a ++ b ++ c.
Proof.
  induction a as [|x a IH]; [reflexivity|].
  change (String x ((a ++ b) ++ c) = String x (a ++ b ++ c)). now rewrite IH.
Qed.

Lemma string_app_nil_r (a : string) : a ++ "" = a.
Proof.
  induction a as [|x a IH]; [reflexivity|].
  change (String x (a ++ "") = String x a). now rewrite IH.
Qed.

Lemma js_join_lines (x : string) (ls : list string) :
  js_join CRLF (x :: ls) ++ CRLF = lines_text (x :: ls).
Proof.
  revert x. induction ls as [|y ls IH]; intros x.
  - cbn [js_join lines_text]. now rewrite string_app_nil_r.
  - change (js_join CRLF (x :: y :: ls)) with (x ++ CRLF ++ js_join CRLF (y :: ls)).
    rewrite !string_app_assoc, IH. reflexivity.
Qed.

Lemma push_values (key : string) (values head : list string) :
  fold_left (fun (head : list string) v => (head ++ [header_line key v])%list) values head
  = (head ++ map (header_line key) values)%list.
Proof.
  revert head. induction values as [|v values IH]; intros head; simpl.
  - now rewrite app_nil_r.
  - rewrite IH, <- app_assoc. reflexivity.
Qed.

Lemma push_headers (hs : list (string * HeaderValue)) (head : list string) :
  fold_left
    (fun (head : list string) (kv : string * HeaderValue) =>
       match snd kv with
       | hv_string value => (head ++ [header_line (fst kv) value])%list
       | hv_array values =>
           fold_left (fun (head : list string) v => (head ++ [header_line (fst kv) v])%list)
             values head
       end)
    hs head
  = (head ++ header_lines hs)%list.
Proof.
  revert head. induction hs as [|[key value] hs IH]; intros head.
  - simpl. now rewrite app_nil_r.
  - cbn [fold_left]. rewrite IH. cbn [header_lines flat_map fst snd].
    fold (header_lines hs).
    destruct value as [value|values].
    + now rewrite <- app_assoc.
    + rewrite push_values, <- app_assoc. reflexivity.
Qed.

(** X22. The head [createSocketHttpHeader] builds is the status line and
    then one line per header value, each closed by CRLF, and one empty line:
    a repeated header (an array of values) gives one line per value in the
    order of the array, and none when the array is empty. *)
Theorem X22_socket_header_format (line : string) (hs : list (string * HeaderValue)) :
  createSocketHttpHeader line hs = lines_text (line :: header_lines hs) ++ CRLF.
Proof.
  unfold createSocketHttpHeader. rewrite push_headers.
  change ([line] ++ header_lines hs)%list with (line :: header_lines hs).
  now rewrite <- js_join_lines, string_app_assoc.
Qed.

(** X23. An upgrade request is left alone exactly when its URL begins
    with the path of the control channel, whatever agents are registered;
    any other upgrade request goes to the agent a plain request with the same
    host and URL goes to, and its socket is destroyed exactly when the plain
    request would be answered 404. *)
Theorem X23_upgrade_decision (ts : list TunnelSocketObj) (requestId : string)
    (req : Request) :
  (handleUpgrade ts requestId req = upgrade_return
   <-> starts_with (url req) webTunnelPath)
  /\ (~ starts_with (url req) webTunnelPath ->
      handleUpgrade ts requestId req =
        match handleRequest ts requestId req with
        | respond_404_not_found => upgrade_socket_destroy
        | call_handleHTTP2Request tunnelSocket id
        | call_handleHTTP1Request tunnelSocket id => upgrade_tunnel tunnelSocket id
        end).
Proof.
  unfold handleUpgrade, handleRequest.
  destruct (indexOf (url req) webTunnelPath =? 0) eqn:E.
  - apply indexOf_zero_starts_with in E. split; [tauto | intros H; contradiction].
  - assert (N : ~ starts_with (url req) webTunnelPath).
    { intros H. apply indexOf_zero_starts_with in H. congruence. }
    split.
    + split; [|intros H; contradiction].
      destruct (getAvailableTunnelSocket _ _ ts); discriminate.
    + intros _. destruct (getAvailableTunnelSocket _ _ ts) as [t|]; [|reflexivity].
      destruct (isHttp2 req && supportsHTTP2 t); reflexivity.
Qed.

(** X24. After the agent's answer to an upgrade request, the raw socket
    is spliced to the tunnel exactly when the status code is 101; in every
    other case the tunnel response is destroyed and the socket ended. A head
    is written to the socket exactly when the status code is truthy, and it
    is then the only thing written. *)
Theorem X24_upgrade_response (statusCode : option Z) (statusMessage : option string)
    (hs : option (list (string * HeaderValue))) (httpVersion : option string) :
  let o := handleUpgrade_onResponse statusCode statusMessage hs httpVersion in
  (spliced o = true <-> statusCode = Some 101)
  /\ raw_ended o = negb (spliced o)
  /\ response_destroyed o = negb (spliced o)
  /\ (raw_written o = [] <-> statusCode = None \/ statusCode = Some 0)
  /\ (forall code, statusCode = Some code -> code <> 0 ->
      raw_written o =
        [lines_text
           (("HTTP/" ++ (if truthy httpVersion then or_empty httpVersion else "1.1")
               ++ " " ++ show_number code ++ " "
               ++ (if truthy statusMessage then or_empty statusMessage else "OK"))
            :: header_lines (match hs with Some l => l | None => [] end))
         ++ CRLF]).
Proof.
  unfold handleUpgrade_onResponse.
  destruct statusCode as [code|].
  - destruct (code =? 0) eqn:E0.
    + apply Z.eqb_eq in E0. subst code. simpl.
      repeat split; auto; try discriminate.
      intros code [= <-] H. contradiction.
    + apply Z.eqb_neq in E0.
      assert (Hw : forall l, createSocketHttpHeader l (match hs with Some l => l | None => [] end)
                             = lines_text (l :: header_lines
                                 (match hs with Some l => l | None => [] end)) ++ CRLF).
      { intros l. unfold createSocketHttpHeader. rewrite push_headers.
        change ([l] ++ header_lines (match hs with Some l => l | None => [] end))%list
          with (l :: header_lines (match hs with Some l => l | None => [] end)).
        now rewrite <- js_join_lines, string_app_assoc. }
      destruct (code =? 101) eqn:E1; cbn [negb].
      * apply Z.eqb_eq in E1. subst code. cbn [spliced raw_ended response_destroyed raw_written negb].
        repeat split; auto; try discriminate.
        -- intros [H|H]; discriminate.
        -- intros code [= <-] _. now rewrite Hw.
      * apply Z.eqb_neq in E1. cbn [spliced raw_ended response_destroyed raw_written negb].
        repeat split; auto; try discriminate.
        -- intros [= H]. contradiction.
        -- intros [H|[= H]]; [discriminate | contradiction].
        -- intros c [= <-] _. now rewrite Hw.
  - simpl. repeat split; auto; try discriminate.
Qed.

(** ** The two gRPC detections of lib2 *)

(** X25. [isGrpcRequest] accepts every header object the header conversion
    treats as gRPC (a content type containing [application/grpc]), and
    besides those exactly the ones with a non-empty [grpc-encoding] or
    [grpc-accept-encoding] header; without a header object it answers no. *)
Theorem X25_isGrpcRequest (hs : gmap string string) :
  isGrpcRequest (Some hs)
  = is_grpc hs || truthy (hs !! "grpc-encoding") || truthy (hs !! "grpc-accept-encoding")
  /\ isGrpcRequest None = false.
Proof.
  split; [|reflexivity].
  unfold isGrpcRequest, is_grpc.
  destruct (hs !! "content-type") as [[|c ct]|]; reflexivity.
Qed.
